(** * Triangle counting on a CSR adjacency matrix (cuFindTriangles.cu)

    A shallow embedding of the CUDA kernels [cuZeroVariable] and
    [cuFindTriangles] with their device helpers [warpReduceSum] and
    [blockReduceSum], and the properties of the triangle count they leave
    in the global accumulator.

    Conventions of the embedding.
    - [int] is a 32-bit signed integer carried in [Z].  Index arithmetic
      on [int] ([row += stride], [j += warpSize], [row+1], ...) is signed
      arithmetic, whose overflow is undefined in C++: it is checked, and an
      overflow is an error ([None]).  [atomicAdd] on an [int] and the
      conversion of an unsigned value to [int] wrap around in two's
      complement: they are written with [wrap32].
    - A global-memory read [a[i]] outside the array is an error ([None]).
    - The [__shared__] array [sum] is declared with [numberOfWarps] slots,
      but the kernel addresses it with lane and warp indices.  The embedding
      keeps the block's shared-memory window as a total map from slot index
      to [int], initially arbitrary, and logs every index used in a trace:
      the values are those the hardware computes, the trace is what the
      bounds of the declaration are checked against.
    - The launch is one-dimensional: [gridDim.x] blocks of [blockDim.x]
      threads, the only dimensions the kernel reads.
    - Threads of a block are run one after the other between barriers, and
      blocks one after the other.  Every update of shared or global state
      inside a phase is an atomic add or a store to a slot no other thread
      of the phase touches, so the order chosen does not matter
      ([block_rows_order], [grid_order]). *)

From Stdlib Require Import ZArith List Bool Lia Permutation.
Import ListNotations.
Local Open Scope Z_scope.

(** ** Machine integers *)

Definition INT_MAX : Z := 2147483647.
Definition INT_MIN : Z := -2147483648.

Definition in_int (z : Z) : bool := (INT_MIN <=? z) && (z <=? INT_MAX).

(** Two's complement wrap-around of a 32-bit signed integer. *)
Definition wrap32 (z : Z) : Z := (z + 2147483648) mod 4294967296 - 2147483648.

(** Signed addition of index expressions. *)
Definition int_add (a b : Z) : option Z :=
  if in_int (a + b) then Some (a + b) else None.

Definition obind {X Y} (o : option X) (k : X -> option Y) : option Y :=
  match o with
  | Some x => k x
  | None => None
  end.

Notation "x <- e ;; k" := (obind e (fun x => k))
  (at level 61, e at next level, right associativity).
Notation "' p <- e ;; k" := (obind e (fun x => match x with p => k end))
  (at level 61, p pattern, e at next level, right associativity).

(** ** The CSR structure (readCSV.h)

    [csrVal] holds the [float] values of the entries, here as their 32-bit
    patterns; the kernels never read it. *)

Record csrFormat : Type := mkCsr {
  nnz : Z;
  csrVal : list Z;
  csrRowPtr : list Z;
  csrColInd : list Z
}.

(** The bit pattern of [1.0f], the value of every entry of an adjacency
    matrix. *)
Definition one_f : Z := 1065353216.

(** A read [a[i]] of global memory. *)
Definition rd (a : list Z) (i : Z) : option Z :=
  if i <? 0 then None else nth_error a (Z.to_nat i).

Definition warpSize : Z := 32.
Definition numberOfWarps : Z := 8.

(** ** cuZeroVariable *)

Definition cuZeroVariable (nT : Z) : Z := 0.

(** ** The row-processing loops of cuFindTriangles (lines 129-168)

    Each loop function carries [calls], the number of times the thread has
    called [warpReduceSum] so far.  The fuel of a loop bounds its number of
    iterations.  Every iteration of the three inner loops reads [csrColInd]
    at a larger index, and every iteration of the row loop advances [row]
    towards [N] unless [stride] has wrapped to zero or below, where the
    source does not return either: on a well-formed input under an accepted
    launch the loops return with the fuel given here ([scan_row_pure],
    [col_loop_pure], [lane_loop_pure], [row_loop_pure]). *)

Definition loop_fuel (A : csrFormat) : nat := S (length (csrColInd A)).

(** [for (l = beginPtr_csr_row; l < A.csrRowPtr[row+1]; l++)], lines 149-164.
    Returns the value of [beginPtr_csr_row] after the loop and the calls. *)
Fixpoint scan_row (fuel : nat) (A : csrFormat) (row csc_row l beginPtr_csr_row calls : Z)
  : option (Z * Z) :=
  match fuel with
  | O => None
  | S fuel' =>
    r1 <- int_add row 1 ;;
    hi <- rd (csrRowPtr A) r1 ;;
    if l <? hi then
      csr_col <- rd (csrColInd A) l ;;
      if csc_row =? csr_col then
        l' <- int_add l 1 ;;
        scan_row fuel' A row csc_row l' beginPtr_csr_row (calls + 1)
      else if csr_col >? csc_row then
        Some (l, calls)
      else
        l' <- int_add l 1 ;;
        scan_row fuel' A row csc_row l' beginPtr_csr_row calls
    else Some (beginPtr_csr_row, calls)
  end.

(** [for (k = beginPtr_csc_col; k < A.csrRowPtr[col+1]; k++)], lines 144-165. *)
Fixpoint col_loop (fuel : nat) (A : csrFormat) (row col k beginPtr_csr_row calls : Z)
  : option Z :=
  match fuel with
  | O => None
  | S fuel' =>
    c1 <- int_add col 1 ;;
    hi <- rd (csrRowPtr A) c1 ;;
    if k <? hi then
      csc_row <- rd (csrColInd A) k ;;
      '(b, calls') <- scan_row (loop_fuel A) A row csc_row
                        beginPtr_csr_row beginPtr_csr_row calls ;;
      k' <- int_add k 1 ;;
      col_loop fuel' A row col k' b calls'
    else Some calls
  end.

(** The body of the [j] loop for one entry, lines 134-166. *)
Definition edge_body (A : csrFormat) (row j calls : Z) : option Z :=
  col <- rd (csrColInd A) j ;;
  if col >? row then
    beginPtr_csr_row <- rd (csrRowPtr A) row ;;
    beginPtr_csc_col <- rd (csrRowPtr A) col ;;
    col_loop (loop_fuel A) A row col beginPtr_csc_col beginPtr_csr_row calls
  else Some calls.

(** [for (j = A.csrRowPtr[row] + lane; j < A.csrRowPtr[row+1]; j += warpSize)],
    lines 132-167; [j] is the value of the loop variable on entry. *)
Fixpoint lane_loop (fuel : nat) (A : csrFormat) (row j calls : Z) : option Z :=
  match fuel with
  | O => None
  | S fuel' =>
    r1 <- int_add row 1 ;;
    hi <- rd (csrRowPtr A) r1 ;;
    if j <? hi then
      calls' <- edge_body A row j calls ;;
      j' <- int_add j warpSize ;;
      lane_loop fuel' A row j' calls'
    else Some calls
  end.

(** [for (row = index; row < N; row += stride)], lines 129-168. *)
Fixpoint row_loop (fuel : nat) (A : csrFormat) (N lane stride row calls : Z) : option Z :=
  match fuel with
  | O => None
  | S fuel' =>
    if row <? N then
      lo <- rd (csrRowPtr A) row ;;
      j <- int_add lo lane ;;
      calls' <- lane_loop (loop_fuel A) A row j calls ;;
      row' <- int_add row stride ;;
      row_loop fuel' A N lane stride row' calls'
    else Some calls
  end.

(** The loops of the thread [threadIdx] of block [blockIdx] in a launch of
    [gridDim] blocks: the number of [warpReduceSum] calls it makes.
    [threadIdx.x], [blockIdx.x] and [gridDim.x] are unsigned: lines 117-122
    compute in unsigned arithmetic and convert to [int] on assignment. *)
Definition thread_calls (A : csrFormat) (N gridDim blockIdx threadIdx : Z) : option Z :=
  let lane := threadIdx mod warpSize in
  let wid := threadIdx / warpSize in
  let index := wrap32 (wid + blockIdx * numberOfWarps) in
  let stride := wrap32 (numberOfWarps * gridDim) in
  row_loop (S (Z.to_nat N)) A N lane stride index 0.

(** ** Shared memory of a block *)

Record shmem : Type := mkShmem {
  cells : Z -> Z;          (* content of slot i of the window based at [sum] *)
  trace : list Z           (* indices used so far, latest first *)
}.

Definition upd (f : Z -> Z) (i v : Z) : Z -> Z :=
  fun j => if j =? i then v else f j.

Definition sh_store (i v : Z) (s : shmem) : shmem :=
  mkShmem (upd (cells s) i v) (i :: trace s).

Definition sh_atomicAdd (i v : Z) (s : shmem) : shmem :=
  mkShmem (upd (cells s) i (wrap32 (cells s i + v))) (i :: trace s).

(** [temp[lane] += temp[lane + i]]: reads both slots, writes the first. *)
Definition sh_add_from (dst src : Z) (s : shmem) : shmem :=
  mkShmem (upd (cells s) dst (wrap32 (cells s dst + cells s src)))
          (dst :: dst :: src :: trace s).

(** The integers [lo], [lo+1], ..., [lo+n-1]. *)
Fixpoint zseq (lo : Z) (n : nat) : list Z :=
  match n with
  | O => []
  | S n' => lo :: zseq (lo + 1) n'
  end.

Definition zrange (lo hi : Z) : list Z := zseq lo (Z.to_nat (hi - lo)).

(** ** warpReduceSum (lines 94-108)

    [g] is the coalesced group: the lanes of the warp that execute the call
    together, in rank order.  Each member computes [val = g.size()], and the
    member of rank 0 adds it to [sum[wid]]. *)
Definition warpReduceSum_thread (gsize rank wid : Z) (sum : shmem) : shmem :=
  let val := gsize in
  if rank =? 0 then sh_atomicAdd wid val sum else sum.

Definition warpReduceSum (g : list Z) (wid : Z) (sum : shmem) : shmem :=
  fold_left (fun s rank => warpReduceSum_thread (Z.of_nat (length g)) rank wid s)
            (zseq 0 (length g)) sum.

(** A warp's row-processing phase under a schedule of coalesced groups. *)
Definition warp_groups (gs : list (list Z)) (wid : Z) (sum : shmem) : shmem :=
  fold_left (fun s g => warpReduceSum g wid s) gs sum.

(** ** blockReduceSum (lines 77-91), run by the [gsize] threads of warp 0 *)

Definition reduce_round (gsize i : Z) (temp : shmem) : shmem :=
  fold_left (fun s lane => if lane <? i then sh_add_from lane (lane + i) s else s)
            (zrange 0 gsize) temp.

(** [for (i = g.size() / 2; i > 0; i /= 2)]; [i] halves, so [gsize] rounds
    of fuel are never used up ([reduce_rounds_enough]). *)
Fixpoint reduce_rounds (fuel : nat) (gsize i : Z) (temp : shmem) : shmem :=
  match fuel with
  | O => temp
  | S fuel' =>
    if 0 <? i then reduce_rounds fuel' gsize (i / 2) (reduce_round gsize i temp)
    else temp
  end.

Definition blockReduceSum (gsize : Z) (temp : shmem) : shmem :=
  reduce_rounds (Z.to_nat gsize) gsize (gsize / 2) temp.

(** ** cuFindTriangles, one block (lines 111-179) *)

(** Line 124: [if (wid == 0) sum[lane] = 0]. *)
Definition init_thread (threadIdx : Z) (sum : shmem) : shmem :=
  let lane := threadIdx mod warpSize in
  let wid := threadIdx / warpSize in
  if wid =? 0 then sh_store lane 0 sum else sum.

Definition block_init (blockDim : Z) (sum : shmem) : shmem :=
  fold_left (fun s t => init_thread t s) (zrange 0 blockDim) sum.

(** Lines 129-168 for one thread running on its own: each of its calls of
    [warpReduceSum] is made by the coalesced group that holds it alone. *)
Definition rows_thread (A : csrFormat) (N gridDim blockIdx threadIdx : Z) (sum : shmem)
  : option shmem :=
  let lane := threadIdx mod warpSize in
  let wid := threadIdx / warpSize in
  c <- thread_calls A N gridDim blockIdx threadIdx ;;
  Some (warp_groups (repeat [lane] (Z.to_nat c)) wid sum).

Fixpoint block_rows_from (A : csrFormat) (N gridDim blockIdx : Z) (ts : list Z) (sum : shmem)
  : option shmem :=
  match ts with
  | [] => Some sum
  | t :: ts' =>
    s <- rows_thread A N gridDim blockIdx t sum ;;
    block_rows_from A N gridDim blockIdx ts' s
  end.

Definition block_rows (A : csrFormat) (N gridDim blockDim blockIdx : Z) (sum : shmem)
  : option shmem :=
  block_rows_from A N gridDim blockIdx (zrange 0 blockDim) sum.

(** Line 173: the threads of warp 0 form the group of [blockReduceSum]. *)
Definition block_reduce (blockDim : Z) (sum : shmem) : shmem :=
  blockReduceSum (Z.min blockDim warpSize) sum.

(** Line 178: [if (threadIdx.x == 0) atomicAdd(nT, sum[0])]. *)
Definition block_commit (sum : shmem) (nT : Z) : shmem * Z :=
  (mkShmem (cells sum) (0 :: trace sum), wrap32 (nT + cells sum 0)).

Definition cuFindTriangles_block (A : csrFormat) (N gridDim blockDim blockIdx : Z)
  (sum : shmem) (nT : Z) : option (shmem * Z) :=
  s <- block_rows A N gridDim blockDim blockIdx (block_init blockDim sum) ;;
  Some (block_commit (block_reduce blockDim s) nT).

(** ** cuFindTriangles, the whole grid

    [uninit b] is the content of the shared memory the block [b] finds. *)
Fixpoint grid_from (A : csrFormat) (N gridDim blockDim : Z) (uninit : Z -> Z -> Z)
  (bs : list Z) (nT : Z) : option Z :=
  match bs with
  | [] => Some nT
  | b :: bs' =>
    '(_, nT') <- cuFindTriangles_block A N gridDim blockDim b (mkShmem (uninit b) []) nT ;;
    grid_from A N gridDim blockDim uninit bs' nT'
  end.

Definition cuFindTriangles (A : csrFormat) (N gridDim blockDim : Z)
  (uninit : Z -> Z -> Z) (nT : Z) : option Z :=
  grid_from A N gridDim blockDim uninit (zrange 0 gridDim) nT.

(** ** Reading the structure as a graph *)

(** Total accessors for statements; [rd] agrees with them inside the arrays. *)
Definition rP (A : csrFormat) (r : Z) : Z := nth (Z.to_nat r) (csrRowPtr A) 0.
Definition cI (A : csrFormat) (l : Z) : Z := nth (Z.to_nat l) (csrColInd A) 0.

Definition ind (b : bool) : Z := if b then 1 else 0.

(** [sumZ n lo f] is [f lo + f (lo+1) + ... + f (lo+n-1)]. *)
Fixpoint sumZ (n : nat) (lo : Z) (f : Z -> Z) : Z :=
  match n with
  | O => 0
  | S n' => f lo + sumZ n' (lo + 1) f
  end.

(** The sum of [f] over the integers of [[lo, hi)]. *)
Definition Sum (lo hi : Z) (f : Z -> Z) : Z := sumZ (Z.to_nat (hi - lo)) lo f.

(** The sum of [f] over the triples of [[0, N)]. *)
Definition Sum3 (N : Z) (f : Z -> Z -> Z -> Z) : Z :=
  Sum 0 N (fun a => Sum 0 N (fun b => Sum 0 N (fun c => f a b c))).

(** The column indices of row [r], in storage order. *)
Definition slice (A : csrFormat) (r : Z) : list Z :=
  map (cI A) (zrange (rP A r) (rP A (r + 1))).

(** Entry [(r, c)] is present. *)
Definition adj (A : csrFormat) (r c : Z) : bool := existsb (Z.eqb c) (slice A r).

(** The number of times row [r] lists column [w]. *)
Definition mult (A : csrFormat) (r w : Z) : Z :=
  Sum (rP A r) (rP A (r + 1)) (fun l => ind (cI A l =? w)).

(** The triangles of the graph: the triples [a < b < c] of pairwise adjacent
    vertices. *)
Definition triangles (A : csrFormat) (N : Z) : Z :=
  Sum 0 N (fun a => Sum (a + 1) N (fun b => Sum (b + 1) N (fun c =>
    ind (adj A a b && adj A b c && adj A a c)))).

(** The vertices adjacent to both [row] and [col]. *)
Definition common_neighbours (A : csrFormat) (N row col : Z) : Z :=
  Sum 0 N (fun w => ind (adj A row w && adj A col w)).

(** The naive intersection in the words of the specification: for every
    entry of [col]'s list, rescan [row]'s full slice from [rowPtr[row]] and
    count the equal entries. *)
Definition naive_intersection (A : csrFormat) (row col : Z) : Z :=
  Sum (rP A col) (rP A (col + 1)) (fun k =>
    Sum (rP A row) (rP A (row + 1)) (fun l => ind (cI A k =? cI A l))).

(** ** Well-formed inputs, as checks *)

(** [rowPtr] has [N+1] offsets, starts at 0, does not decrease and ends at
    [nnz], the length of [colInd]; every column index is in [[0, N)]; [N+1]
    and [nnz] are values of type [int]. *)
Definition wf_csr (A : csrFormat) (N : Z) : bool :=
  (0 <=? N) && (N <? INT_MAX)
  && (Z.of_nat (length (csrRowPtr A)) =? N + 1)
  && (rP A 0 =? 0)
  && (rP A N =? Z.of_nat (length (csrColInd A)))
  && (nnz A =? Z.of_nat (length (csrColInd A)))
  && (nnz A <=? INT_MAX)
  && forallb (fun r => rP A r <=? rP A (r + 1)) (zrange 0 N)
  && forallb (fun c => (0 <=? c) && (c <? N)) (csrColInd A).

(** Adjacent entries of every row slice compare by [cmp]. *)
Definition rows_by (cmp : Z -> Z -> bool) (A : csrFormat) (N : Z) : bool :=
  forallb (fun r =>
    forallb (fun l => cmp (cI A l) (cI A (l + 1)))
            (zrange (rP A r) (rP A (r + 1) - 1)))
          (zrange 0 N).

Definition rows_sorted : csrFormat -> Z -> bool := rows_by Z.leb.
Definition rows_strict : csrFormat -> Z -> bool := rows_by Z.ltb.

(** One row slice ascending, weakly or strictly. *)
Definition row_by (cmp : Z -> Z -> bool) (A : csrFormat) (r : Z) : bool :=
  forallb (fun l => cmp (cI A l) (cI A (l + 1)))
          (zrange (rP A r) (rP A (r + 1) - 1)).

(** Entry [(r, c)] present implies entry [(c, r)] present. *)
Definition symmetric (A : csrFormat) (N : Z) : bool :=
  forallb (fun r => forallb (fun c => adj A c r) (slice A r)) (zrange 0 N).

(** No vertex is its own neighbour. *)
Definition no_self_loops (A : csrFormat) (N : Z) : bool :=
  forallb (fun r => negb (adj A r r)) (zrange 0 N).

(** The launch is accepted and the index arithmetic of the kernel stays
    inside [int]: at least one block, a block of 1 to 1024 threads,
    [row + stride] and [j + warpSize] representable. *)
Definition launch_ok (A : csrFormat) (N gridDim blockDim : Z) : bool :=
  (1 <=? gridDim) && (1 <=? blockDim) && (blockDim <=? 1024)
  && (N + numberOfWarps * gridDim + warpSize <=? INT_MAX)
  && (Z.of_nat (length (csrColInd A)) + warpSize <=? INT_MAX).

(** The same conditions as propositions. *)
Record WF (A : csrFormat) (N : Z) : Prop := {
  wf_N : 0 <= N < INT_MAX;
  wf_rows : Z.of_nat (length (csrRowPtr A)) = N + 1;
  wf_first : rP A 0 = 0;
  wf_last : rP A N = Z.of_nat (length (csrColInd A));
  wf_int : Z.of_nat (length (csrColInd A)) <= INT_MAX;
  wf_mono : forall r, 0 <= r < N -> rP A r <= rP A (r + 1);
  wf_cols : forall l, 0 <= l < Z.of_nat (length (csrColInd A)) -> 0 <= cI A l < N
}.

Record Launch (A : csrFormat) (N G B : Z) : Prop := {
  la_grid : 1 <= G;
  la_block : 1 <= B <= 1024;
  la_rows : N + numberOfWarps * G + warpSize <= INT_MAX;
  la_cols : Z.of_nat (length (csrColInd A)) + warpSize <= INT_MAX
}.

(** ** Closed forms of the loops, used in the proofs *)

(** The scan of [n] entries from index [l] against the value [x]: the new
    [beginPtr_csr_row] and the number of matches. *)
Fixpoint scan_pure (n : nat) (c : Z -> Z) (x l b : Z) : Z * Z :=
  match n with
  | O => (b, 0)
  | S n' =>
    if x =? c l then
      let '(b', m) := scan_pure n' c x (l + 1) b in (b', m + 1)
    else if c l >? x then (l, 0)
    else scan_pure n' c x (l + 1) b
  end.

(** The [k] loop over [n] entries from index [k], with the row slice ending
    at [row_hi] and the cursor at [b]. *)
Fixpoint col_pure (n : nat) (c : Z -> Z) (row_hi k b : Z) : Z :=
  match n with
  | O => 0
  | S n' =>
    let '(b', m) := scan_pure (Z.to_nat (row_hi - b)) c (c k) b b in
    m + col_pure n' c row_hi (k + 1) b'
  end.

(** What the thread that visits the edge [(row, col)] records for it. *)
Definition edge_calls (A : csrFormat) (row col : Z) : Z :=
  col_pure (Z.to_nat (rP A (col + 1) - rP A col)) (cI A)
           (rP A (row + 1)) (rP A col) (rP A row).

(** What is recorded for the entry at index [j] of row [row]. *)
Definition entry_calls (A : csrFormat) (row j : Z) : Z :=
  if cI A j >? row then edge_calls A row (cI A j) else 0.

(** What is recorded for a row, and for the whole matrix. *)
Definition row_calls (A : csrFormat) (row : Z) : Z :=
  Sum (rP A row) (rP A (row + 1)) (entry_calls A row).

Definition total_calls (A : csrFormat) (N : Z) : Z := Sum 0 N (row_calls A).

(** The summand of a loop that starts at [start] and advances by [step]. *)
Definition strided (start step : Z) (f : Z -> Z) : Z -> Z :=
  fun i => if (start <=? i) && ((i - start) mod step =? 0) then f i else 0.

(** The entries a lane visits in a row, and the rows a thread visits. *)
Definition lane_calls (A : csrFormat) (row lane : Z) : Z :=
  Sum (rP A row) (rP A (row + 1))
      (strided (rP A row + lane) warpSize (entry_calls A row)).

Definition thread_sum (A : csrFormat) (N gridDim blockIdx threadIdx : Z) : Z :=
  let lane := threadIdx mod warpSize in
  let index := threadIdx / warpSize + blockIdx * numberOfWarps in
  Sum 0 N (strided index (numberOfWarps * gridDim) (fun row => lane_calls A row lane)).

(** The calls made by the threads [ts] of a block and by the blocks [bs] of
    the grid, each thread on its own; [None] when the loops of a thread fail. *)
Fixpoint block_calls_from (A : csrFormat) (N gridDim blockIdx : Z) (ts : list Z)
  : option Z :=
  match ts with
  | [] => Some 0
  | t :: ts' =>
    c <- thread_calls A N gridDim blockIdx t ;;
    r <- block_calls_from A N gridDim blockIdx ts' ;;
    Some (Z.of_nat (Z.to_nat c) + r)
  end.

Definition block_calls (A : csrFormat) (N gridDim blockDim blockIdx : Z) : option Z :=
  block_calls_from A N gridDim blockIdx (zrange 0 blockDim).

Fixpoint grid_calls_from (A : csrFormat) (N gridDim blockDim : Z) (bs : list Z)
  : option Z :=
  match bs with
  | [] => Some 0
  | b :: bs' =>
    d <- block_calls A N gridDim blockDim b ;;
    r <- grid_calls_from A N gridDim blockDim bs' ;;
    Some (d + r)
  end.

Definition grid_calls (A : csrFormat) (N gridDim blockDim : Z) : option Z :=
  grid_calls_from A N gridDim blockDim (zrange 0 gridDim).

(** Equality of accumulators up to wrap-around. *)
Definition eqm (a b : Z) : Prop := wrap32 a = wrap32 b.

(** ** Schedules of coalesced groups

    Which threads of a warp execute a call of [warpReduceSum] together is
    decided by the hardware.  A schedule lists the coalesced groups of the
    calls of one warp, each group a list of lanes in rank order. *)

Fixpoint nodupb (l : list Z) : bool :=
  match l with
  | [] => true
  | x :: l' => negb (existsb (Z.eqb x) l') && nodupb l'
  end.

(** A group holds at least one lane, no lane twice, and lanes of the warp. *)
Definition group_ok (lanes : Z) (g : list Z) : bool :=
  match g with
  | [] => false
  | _ => nodupb g && forallb (fun lane => (0 <=? lane) && (lane <? lanes)) g
  end.

(** The number of groups of [gs] that hold [lane]. *)
Definition count_lane (lane : Z) (gs : list (list Z)) : Z :=
  fold_right (fun g n => ind (existsb (Z.eqb lane) g) + n) 0 gs.

(** [gs] is a schedule of the calls of the [lanes] threads of warp [wid]:
    every lane is in as many groups as its loops make calls. *)
Definition schedule_ok (A : csrFormat) (N gridDim blockIdx wid lanes : Z)
  (gs : list (list Z)) : bool :=
  forallb (group_ok lanes) gs
  && forallb (fun lane =>
       match thread_calls A N gridDim blockIdx (wid * warpSize + lane) with
       | Some c => c =? count_lane lane gs
       | None => false
       end) (zrange 0 lanes).

(** The match events found by the threads of a warp. *)
Definition warp_matches (A : csrFormat) (N gridDim blockIdx wid lanes : Z) : Z :=
  Sum 0 lanes (fun lane =>
    match thread_calls A N gridDim blockIdx (wid * warpSize + lane) with
    | Some c => c
    | None => 0
    end).

(** The number of warps of a block of [blockDim] threads. *)
Definition warps_in_block (blockDim : Z) : Z := (blockDim + warpSize - 1) / warpSize.

(** Two outcomes of a phase agree: both fail, or both return and every
    slot holds the same value. *)
Definition same_cells (o1 o2 : option shmem) : Prop :=
  match o1, o2 with
  | Some s1, Some s2 => forall j, cells s1 j = cells s2 j
  | None, None => True
  | _, _ => False
  end.

(** The index [i] is inside the declaration [sum[numberOfWarps]]. *)
Definition in_sum_bounds (i : Z) : bool := (0 <=? i) && (i <? numberOfWarps).

(** ** Further readings of the structure *)

(** The sum of the entries of [(A * A) .* A]: for every stored entry
    [(r, colInd[j])], the pairs of equal entries of the two rows. *)
Definition full_sum (A : csrFormat) (N : Z) : Z :=
  Sum 0 N (fun r =>
    Sum (rP A r) (rP A (r + 1)) (fun j => naive_intersection A r (cI A j))).

(** The slots [[0, m)] hold the same values in [s] and [s']. *)
Definition same_slots (m : Z) (s s' : shmem) : bool :=
  forallb (fun j => cells s j =? cells s' j) (zrange 0 m).

(** Every index of the trace is inside [[0, m)]. *)
Definition trace_below (m : Z) (s : shmem) : bool :=
  forallb (fun i => (0 <=? i) && (i <? m)) (trace s).

(** ** Example inputs *)

(** The 3-node complete graph: edges 0-1, 0-2, 1-2 in both directions. *)
Definition K3 : csrFormat :=
  mkCsr 6 (repeat one_f 6) [0; 2; 4; 6] [1; 2; 0; 2; 0; 1].

(** [N] rows and no entry. *)
Definition empty_csr (N : Z) : csrFormat :=
  mkCsr 0 [] (repeat 0 (S (Z.to_nat N))) [].

(** The 4-node complete graph. *)
Definition K4 : csrFormat :=
  mkCsr 12 (repeat one_f 12) [0; 3; 6; 9; 12] [1; 2; 3; 0; 2; 3; 0; 1; 3; 0; 1; 2].

(** Rows ascending, row 1 lists column 2 twice. *)
Definition D4 : csrFormat :=
  mkCsr 9 (repeat one_f 9) [0; 3; 6; 8; 9] [1; 2; 3; 0; 2; 2; 0; 1; 0].

(** Rows ascending, row 0 lists column 2 twice. *)
Definition R3 : csrFormat :=
  mkCsr 7 (repeat one_f 7) [0; 3; 5; 7] [1; 2; 2; 0; 2; 0; 1].

(** Two vertices joined by an edge, vertex 0 with a loop. *)
Definition L2 : csrFormat := mkCsr 3 (repeat one_f 3) [0; 2; 3] [0; 1; 0].

(** The 3-node complete graph with the second entry of row 0 replaced by
    the column 3, outside [[0, 3)]. *)
Definition B3 : csrFormat :=
  mkCsr 6 (repeat one_f 6) [0; 2; 4; 6] [1; 3; 0; 2; 0; 1].

(** Row 0 lists its neighbours in descending order. *)
Definition U3 : csrFormat :=
  mkCsr 6 (repeat one_f 6) [0; 2; 4; 6] [2; 1; 0; 2; 0; 1].

Definition junk : Z -> Z -> Z := fun b i => 1000 * b + i + 77.

(** * Proofs *)

(** ** Machine integers *)

Lemma wrap32_range z : INT_MIN <= wrap32 z <= INT_MAX.
Proof.
  unfold wrap32, INT_MIN, INT_MAX.
  pose proof (Z.mod_pos_bound (z + 2147483648) 4294967296 ltac:(lia)). lia.
Qed.

Lemma wrap32_id z : INT_MIN <= z <= INT_MAX -> wrap32 z = z.
Proof.
  unfold wrap32, INT_MIN, INT_MAX. intros H.
  rewrite Z.mod_small by lia. lia.
Qed.

Lemma wrap32_add_l a b : wrap32 (wrap32 a + b) = wrap32 (a + b).
Proof.
  unfold wrap32.
  replace ((a + 2147483648) mod 4294967296 - 2147483648 + b + 2147483648)
    with ((a + 2147483648) mod 4294967296 + b) by lia.
  rewrite Z.add_mod_idemp_l by lia. f_equal. f_equal. lia.
Qed.

Lemma wrap32_add_r a b : wrap32 (a + wrap32 b) = wrap32 (a + b).
Proof. rewrite (Z.add_comm a), wrap32_add_l. f_equal. lia. Qed.

Lemma wrap32_idem a : wrap32 (wrap32 a) = wrap32 a.
Proof. apply wrap32_id, wrap32_range. Qed.

Lemma int_add_some a b : INT_MIN <= a + b <= INT_MAX -> int_add a b = Some (a + b).
Proof.
  intros H. unfold int_add, in_int.
  destruct (Z.leb_spec INT_MIN (a + b)); destruct (Z.leb_spec (a + b) INT_MAX);
    simpl; try reflexivity; lia.
Qed.

(** ** Sums over integer ranges *)

Lemma Sum_nil lo hi f : hi <= lo -> Sum lo hi f = 0.
Proof.
  intros H. unfold Sum. replace (Z.to_nat (hi - lo)) with O by lia. reflexivity.
Qed.

Lemma Sum_step lo hi f : lo < hi -> Sum lo hi f = f lo + Sum (lo + 1) hi f.
Proof.
  intros H. unfold Sum.
  replace (Z.to_nat (hi - lo)) with (S (Z.to_nat (hi - (lo + 1)))) by lia.
  reflexivity.
Qed.

Lemma sumZ_ext n : forall lo f g,
  (forall i, lo <= i < lo + Z.of_nat n -> f i = g i) -> sumZ n lo f = sumZ n lo g.
Proof.
  induction n as [|n IH]; intros lo f g H; simpl; [reflexivity|].
  rewrite (H lo) by lia. f_equal. apply IH. intros i Hi. apply H. lia.
Qed.

Lemma Sum_ext lo hi f g :
  (forall i, lo <= i < hi -> f i = g i) -> Sum lo hi f = Sum lo hi g.
Proof. intros H. unfold Sum. apply sumZ_ext. intros i Hi. apply H. lia. Qed.

Lemma sumZ_app n m : forall lo f,
  sumZ (n + m) lo f = sumZ n lo f + sumZ m (lo + Z.of_nat n) f.
Proof.
  induction n as [|n IH]; intros lo f.
  - simpl. f_equal. lia.
  - cbn [Nat.add sumZ]. rewrite IH.
    replace (lo + 1 + Z.of_nat n) with (lo + Z.of_nat (S n)) by lia. lia.
Qed.

Lemma Sum_split lo mid hi f :
  lo <= mid <= hi -> Sum lo hi f = Sum lo mid f + Sum mid hi f.
Proof.
  intros H. unfold Sum.
  replace (Z.to_nat (hi - lo)) with (Z.to_nat (mid - lo) + Z.to_nat (hi - mid))%nat by lia.
  rewrite sumZ_app. do 2 f_equal. lia.
Qed.

Lemma Sum_last lo hi f : lo < hi -> Sum lo hi f = Sum lo (hi - 1) f + f (hi - 1).
Proof.
  intros H. rewrite (Sum_split lo (hi - 1) hi) by lia.
  rewrite (Sum_step (hi - 1) hi) by lia. rewrite (Sum_nil (hi - 1 + 1)) by lia. lia.
Qed.

Lemma Sum_zero lo hi f : (forall i, lo <= i < hi -> f i = 0) -> Sum lo hi f = 0.
Proof.
  intros H. rewrite (Sum_ext lo hi f (fun _ => 0)) by exact H.
  clear H. unfold Sum. generalize (Z.to_nat (hi - lo)) as n. revert lo.
  intros l n; revert l.
  induction n as [|n IH]; intros l; simpl; [reflexivity | apply IH].
Qed.

Lemma Sum_add lo hi f g :
  Sum lo hi (fun i => f i + g i) = Sum lo hi f + Sum lo hi g.
Proof.
  unfold Sum. generalize (Z.to_nat (hi - lo)) as n. revert lo.
  intros l n; revert l.
  induction n as [|n IH]; intros l; simpl; [reflexivity|]. rewrite IH. lia.
Qed.

Lemma Sum_scale lo hi k f : Sum lo hi (fun i => k * f i) = k * Sum lo hi f.
Proof.
  unfold Sum. generalize (Z.to_nat (hi - lo)) as n. revert lo.
  intros l n; revert l.
  induction n as [|n IH]; intros l; simpl; [lia|]. rewrite IH. lia.
Qed.

Lemma Sum_scale_r lo hi k f : Sum lo hi (fun i => f i * k) = Sum lo hi f * k.
Proof.
  rewrite (Z.mul_comm _ k), <- Sum_scale. apply Sum_ext. intros. lia.
Qed.

Lemma sumZ_swap n : forall l lo2 hi2 (f : Z -> Z -> Z),
  sumZ n l (fun i => Sum lo2 hi2 (fun j => f i j))
  = Sum lo2 hi2 (fun j => sumZ n l (fun i => f i j)).
Proof.
  induction n as [|n IH]; intros l lo2 hi2 f; simpl.
  - symmetry. apply Sum_zero. reflexivity.
  - rewrite IH, <- Sum_add. reflexivity.
Qed.

Lemma Sum_swap lo1 hi1 lo2 hi2 (f : Z -> Z -> Z) :
  Sum lo1 hi1 (fun i => Sum lo2 hi2 (fun j => f i j))
  = Sum lo2 hi2 (fun j => Sum lo1 hi1 (fun i => f i j)).
Proof. unfold Sum at 1. rewrite sumZ_swap. reflexivity. Qed.

Lemma Sum_nonneg lo hi f : (forall i, lo <= i < hi -> 0 <= f i) -> 0 <= Sum lo hi f.
Proof.
  unfold Sum. intros H.
  assert (G : forall n l, lo <= l -> l + Z.of_nat n <= Z.max lo hi -> 0 <= sumZ n l f).
  { induction n as [|n IH]; intros l H1 H2; simpl; [lia|].
    pose proof (H l ltac:(lia)). pose proof (IH (l + 1) ltac:(lia) ltac:(lia)). lia. }
  apply G; lia.
Qed.

(** An indicator of one point of the range sums to the value there. *)
Lemma Sum_single lo hi p f :
  lo <= p < hi -> Sum lo hi (fun i => if i =? p then f i else 0) = f p.
Proof.
  intros H. rewrite (Sum_split lo p hi) by lia.
  rewrite (Sum_step p hi) by lia. rewrite Z.eqb_refl.
  rewrite !Sum_zero; [lia| |]; intros i Hi;
    destruct (Z.eqb_spec i p); try reflexivity; lia.
Qed.

(** ** Lists of consecutive integers *)

Lemma in_zseq n : forall lo i, In i (zseq lo n) <-> lo <= i < lo + Z.of_nat n.
Proof.
  induction n as [|n IH]; intros lo i; simpl.
  - lia.
  - rewrite IH. lia.
Qed.

Lemma in_zrange lo hi i : In i (zrange lo hi) <-> lo <= i < hi.
Proof. unfold zrange. rewrite in_zseq. lia. Qed.

Lemma forallb_zrange p lo hi :
  forallb p (zrange lo hi) = true -> forall i, lo <= i < hi -> p i = true.
Proof.
  intros H i Hi. rewrite forallb_forall in H. apply H, in_zrange, Hi.
Qed.

Lemma zseq_app n m : forall lo, zseq lo (n + m) = zseq lo n ++ zseq (lo + Z.of_nat n) m.
Proof.
  induction n as [|n IH]; intros lo.
  - simpl. f_equal. lia.
  - cbn [Nat.add zseq app]. rewrite IH. do 3 f_equal. lia.
Qed.

Lemma zrange_nil lo hi : hi <= lo -> zrange lo hi = [].
Proof. intros H. unfold zrange. replace (Z.to_nat (hi - lo)) with O by lia. reflexivity. Qed.

Lemma zrange_cons lo hi : lo < hi -> zrange lo hi = lo :: zrange (lo + 1) hi.
Proof.
  intros H. unfold zrange.
  replace (Z.to_nat (hi - lo)) with (S (Z.to_nat (hi - (lo + 1)))) by lia. reflexivity.
Qed.

Lemma zrange_split lo mid hi :
  lo <= mid <= hi -> zrange lo hi = zrange lo mid ++ zrange mid hi.
Proof.
  intros H. unfold zrange.
  replace (Z.to_nat (hi - lo)) with (Z.to_nat (mid - lo) + Z.to_nat (hi - mid))%nat by lia.
  rewrite zseq_app. do 2 f_equal. lia.
Qed.

(** ** Well-formed structures *)

Lemma wf_csr_WF A N : wf_csr A N = true -> WF A N.
Proof.
  unfold wf_csr. rewrite !andb_true_iff.
  intros [[[[[[[[H1 H2] H3] H4] H5] H6] H7] H8] H9].
  apply Z.leb_le in H1. apply Z.ltb_lt in H2. apply Z.eqb_eq in H3, H4, H5, H6.
  apply Z.leb_le in H7.
  constructor; try assumption; try lia.
  - intros r Hr. apply Z.leb_le. exact (forallb_zrange _ _ _ H8 r Hr).
  - intros l Hl. rewrite forallb_forall in H9.
    assert (Hin : In (cI A l) (csrColInd A)).
    { unfold cI. apply nth_In. lia. }
    specialize (H9 _ Hin). rewrite andb_true_iff in H9. lia.
Qed.

Lemma rP_mono_le A N : WF A N ->
  forall r1 r2, 0 <= r1 <= r2 -> r2 <= N -> rP A r1 <= rP A r2.
Proof.
  intros W r1 r2 H1 H2.
  replace r2 with (r1 + Z.of_nat (Z.to_nat (r2 - r1))) in * by lia.
  induction (Z.to_nat (r2 - r1)) as [|n IH]; [rewrite Z.add_0_r; lia|].
  pose proof (wf_mono _ _ W (r1 + Z.of_nat n) ltac:(lia)).
  replace (r1 + Z.of_nat (S n)) with (r1 + Z.of_nat n + 1) in * by lia.
  specialize (IH ltac:(lia) ltac:(lia)). lia.
Qed.

Lemma rP_bounds A N : WF A N ->
  forall r, 0 <= r <= N -> 0 <= rP A r <= Z.of_nat (length (csrColInd A)).
Proof.
  intros W r Hr.
  pose proof (rP_mono_le _ _ W 0 r ltac:(lia) ltac:(lia)).
  pose proof (rP_mono_le _ _ W r N ltac:(lia) ltac:(lia)).
  rewrite (wf_first _ _ W) in *. rewrite (wf_last _ _ W) in *. lia.
Qed.

Lemma rd_nth a i : 0 <= i < Z.of_nat (length a) -> rd a i = Some (nth (Z.to_nat i) a 0).
Proof.
  intros H. unfold rd. destruct (Z.ltb_spec i 0); [lia|].
  apply nth_error_nth'. lia.
Qed.

Lemma rd_rowPtr A N : WF A N -> forall r, 0 <= r <= N -> rd (csrRowPtr A) r = Some (rP A r).
Proof. intros W r Hr. apply rd_nth. rewrite (wf_rows _ _ W). lia. Qed.

Lemma rd_colInd A l :
  0 <= l < Z.of_nat (length (csrColInd A)) -> rd (csrColInd A) l = Some (cI A l).
Proof. apply rd_nth. Qed.

(** ** Strided sums *)

Lemma strided_mod_shift i start step :
  0 < step -> (i - (start + step)) mod step = (i - start) mod step.
Proof.
  intros H. replace (i - (start + step)) with (i - start + (-1) * step) by lia.
  apply Z_mod_plus_full.
Qed.

Lemma strided_step lo hi start step f :
  0 < step -> lo <= start < hi ->
  Sum lo hi (strided start step f) = f start + Sum lo hi (strided (start + step) step f).
Proof.
  intros Hs Hr.
  rewrite <- (Sum_single lo hi start f Hr), <- Sum_add.
  apply Sum_ext. intros i Hi. unfold strided.
  rewrite strided_mod_shift by assumption.
  destruct (Z.eqb_spec i start) as [->|Hne].
  - rewrite Z.sub_diag, Z.mod_0_l by lia. rewrite Z.leb_refl. simpl.
    destruct (Z.leb_spec (start + step) start); [lia|]. simpl. lia.
  - destruct (Z.leb_spec start i); destruct (Z.leb_spec (start + step) i); simpl;
      try reflexivity; try lia.
    destruct (Z.eqb_spec ((i - start) mod step) 0) as [E|E]; [|reflexivity].
    exfalso. apply Z.mod_divide in E; [|lia]. destruct E as [q E].
    assert (Hq : q <= 0 \/ 1 <= q) by lia. destruct Hq; nia.
Qed.

Lemma strided_done lo hi start step f :
  hi <= start -> Sum lo hi (strided start step f) = 0.
Proof.
  intros H. apply Sum_zero. intros i Hi. unfold strided.
  destruct (Z.leb_spec start i); [lia|]. reflexivity.
Qed.

(** ** The loops compute their closed forms *)

Ltac int_range := unfold INT_MIN, INT_MAX, warpSize, numberOfWarps in *; lia.

Lemma scan_pure_cursor n c x : forall l b,
  fst (scan_pure n c x l b) = b \/ l <= fst (scan_pure n c x l b) < l + Z.of_nat n.
Proof.
  induction n as [|n IH]; intros l b; cbn [scan_pure].
  - left. reflexivity.
  - destruct (x =? c l).
    + specialize (IH (l + 1) b). destruct (scan_pure n c x (l + 1) b) as [b' m].
      cbn [fst] in *. lia.
    + destruct (c l >? x); cbn [fst]; [lia|].
      specialize (IH (l + 1) b). lia.
Qed.

Lemma scan_pure_nonneg n c x : forall l b, 0 <= snd (scan_pure n c x l b).
Proof.
  induction n as [|n IH]; intros l b; cbn [scan_pure].
  - simpl. lia.
  - destruct (x =? c l).
    + specialize (IH (l + 1) b). destruct (scan_pure n c x (l + 1) b) as [b' m].
      cbn [snd] in *. lia.
    + destruct (c l >? x); cbn [snd]; [lia|]. apply IH.
Qed.

Section Loops.

Variables (A : csrFormat) (N : Z).
Hypothesis W : WF A N.

Local Notation "'len'" := (Z.of_nat (length (csrColInd A))).

Lemma scan_row_pure row x : 0 <= row < N ->
  forall n l b calls fuel,
    0 <= l -> l + Z.of_nat n = rP A (row + 1) -> (n < fuel)%nat ->
    scan_row fuel A row x l b calls
    = Some (fst (scan_pure n (cI A) x l b), calls + snd (scan_pure n (cI A) x l b)).
Proof.
  intros Hrow.
  pose proof (wf_N _ _ W) as HN. pose proof (wf_int _ _ W) as Hint.
  pose proof (rP_bounds _ _ W (row + 1) ltac:(lia)) as Hhi.
  induction n as [|n IH]; intros l b calls fuel Hl Hn Hf;
    (destruct fuel as [|fuel]; [lia|]); cbn [scan_row scan_pure].
  - rewrite int_add_some by int_range. cbn [obind].
    rewrite (rd_rowPtr _ _ W) by lia. cbn [obind].
    destruct (Z.ltb_spec l (rP A (row + 1))); [lia|]. cbn [fst snd].
    rewrite Z.add_0_r. reflexivity.
  - rewrite int_add_some by int_range. cbn [obind].
    rewrite (rd_rowPtr _ _ W) by lia. cbn [obind].
    destruct (Z.ltb_spec l (rP A (row + 1))); [|lia].
    rewrite rd_colInd by lia. cbn [obind].
    destruct (x =? cI A l).
    + rewrite int_add_some by int_range. cbn [obind].
      rewrite IH by lia.
      destruct (scan_pure n (cI A) x (l + 1) b) as [b' m]. cbn [fst snd].
      do 2 f_equal. lia.
    + destruct (cI A l >? x).
      * cbn [fst snd]. rewrite Z.add_0_r. reflexivity.
      * rewrite int_add_some by int_range. cbn [obind].
        apply IH; lia.
Qed.

Lemma col_loop_pure row col : 0 <= row < N -> 0 <= col < N ->
  forall n k b calls fuel,
    0 <= k -> k + Z.of_nat n = rP A (col + 1) -> (n < fuel)%nat ->
    rP A row <= b <= rP A (row + 1) ->
    col_loop fuel A row col k b calls
    = Some (calls + col_pure n (cI A) (rP A (row + 1)) k b).
Proof.
  intros Hrow Hcol.
  pose proof (wf_N _ _ W) as HN. pose proof (wf_int _ _ W) as Hint.
  pose proof (rP_bounds _ _ W (col + 1) ltac:(lia)) as Hhi.
  pose proof (rP_bounds _ _ W (row + 1) ltac:(lia)) as Hrhi.
  pose proof (rP_bounds _ _ W row ltac:(lia)) as Hrlo.
  induction n as [|n IH]; intros k b calls fuel Hk Hn Hf Hb;
    (destruct fuel as [|fuel]; [lia|]); cbn [col_loop col_pure].
  - rewrite int_add_some by int_range. cbn [obind].
    rewrite (rd_rowPtr _ _ W) by lia. cbn [obind].
    destruct (Z.ltb_spec k (rP A (col + 1))); [lia|].
    rewrite Z.add_0_r. reflexivity.
  - rewrite int_add_some by int_range. cbn [obind].
    rewrite (rd_rowPtr _ _ W) by lia. cbn [obind].
    destruct (Z.ltb_spec k (rP A (col + 1))); [|lia].
    rewrite rd_colInd by lia. cbn [obind].
    rewrite (scan_row_pure row (cI A k) Hrow (Z.to_nat (rP A (row + 1) - b)))
      by (unfold loop_fuel; lia).
    cbn [obind].
    pose proof (scan_pure_cursor (Z.to_nat (rP A (row + 1) - b)) (cI A) (cI A k) b b) as Hc.
    destruct (scan_pure (Z.to_nat (rP A (row + 1) - b)) (cI A) (cI A k) b b) as [b' m].
    cbn [fst snd] in *.
    rewrite int_add_some by int_range. cbn [obind].
    rewrite IH by lia. f_equal. lia.
Qed.

Lemma edge_body_pure row j calls :
  0 <= row < N -> 0 <= j < len ->
  edge_body A row j calls = Some (calls + entry_calls A row j).
Proof.
  intros Hrow Hj. unfold edge_body, entry_calls.
  rewrite rd_colInd by lia. cbn [obind].
  pose proof (wf_cols _ _ W j Hj) as Hc.
  destruct (cI A j >? row).
  - rewrite !(rd_rowPtr _ _ W) by lia. cbn [obind].
    pose proof (rP_bounds _ _ W (cI A j) ltac:(lia)).
    pose proof (rP_bounds _ _ W (cI A j + 1) ltac:(lia)).
    pose proof (wf_mono _ _ W (cI A j) ltac:(lia)).
    pose proof (wf_mono _ _ W row ltac:(lia)).
    rewrite (col_loop_pure row (cI A j) Hrow Hc
               (Z.to_nat (rP A (cI A j + 1) - rP A (cI A j))))
      by (unfold loop_fuel; lia).
    reflexivity.
  - rewrite Z.add_0_r. reflexivity.
Qed.

Lemma lane_loop_pure row : 0 <= row < N ->
  len + warpSize <= INT_MAX ->
  forall fuel j calls,
    rP A row <= j -> (Z.to_nat (rP A (row + 1) - j) < fuel)%nat ->
    lane_loop fuel A row j calls
    = Some (calls + Sum (rP A row) (rP A (row + 1)) (strided j warpSize (entry_calls A row))).
Proof.
  intros Hrow Hov.
  pose proof (wf_N _ _ W) as HN.
  pose proof (rP_bounds _ _ W (row + 1) ltac:(lia)) as Hhi.
  pose proof (rP_bounds _ _ W row ltac:(lia)) as Hlo.
  induction fuel as [|fuel IH]; intros j calls Hj Hf; [lia|]. cbn [lane_loop].
  rewrite int_add_some by int_range. cbn [obind].
  rewrite (rd_rowPtr _ _ W) by lia. cbn [obind].
  destruct (Z.ltb_spec j (rP A (row + 1))).
  - rewrite edge_body_pure by lia. cbn [obind].
    rewrite int_add_some by int_range. cbn [obind].
    rewrite IH by (unfold warpSize; lia).
    rewrite (strided_step _ _ j warpSize) by (unfold warpSize; lia).
    f_equal. lia.
  - rewrite strided_done by lia. rewrite Z.add_0_r. reflexivity.
Qed.

Lemma row_loop_pure lane stride :
  0 <= lane < warpSize -> 0 < stride -> N + stride <= INT_MAX ->
  len + warpSize <= INT_MAX ->
  forall fuel row calls,
    0 <= row -> (Z.to_nat (N - row) < fuel)%nat ->
    row_loop fuel A N lane stride row calls
    = Some (calls + Sum 0 N (strided row stride (fun r => lane_calls A r lane))).
Proof.
  intros Hlane Hs Hov Hov2.
  pose proof (wf_N _ _ W) as HN.
  induction fuel as [|fuel IH]; intros row calls Hrow Hf; [lia|]. cbn [row_loop].
  destruct (Z.ltb_spec row N).
  - pose proof (rP_bounds _ _ W (row + 1) ltac:(lia)) as Hhi.
    pose proof (rP_bounds _ _ W row ltac:(lia)) as Hlo.
    pose proof (wf_mono _ _ W row ltac:(lia)).
    rewrite (rd_rowPtr _ _ W) by lia. cbn [obind].
    rewrite int_add_some by int_range. cbn [obind].
    rewrite lane_loop_pure by (unfold loop_fuel; lia). cbn [obind].
    rewrite int_add_some by int_range. cbn [obind].
    rewrite IH by lia.
    rewrite (strided_step _ _ row stride) by lia.
    f_equal. unfold lane_calls. lia.
  - rewrite strided_done by lia. rewrite Z.add_0_r. reflexivity.
Qed.

End Loops.

Lemma col_pure_nonneg n c hi : forall k b, 0 <= col_pure n c hi k b.
Proof.
  induction n as [|n IH]; intros k b; cbn [col_pure]; [lia|].
  pose proof (scan_pure_nonneg (Z.to_nat (hi - b)) c (c k) b b) as Hm.
  destruct (scan_pure (Z.to_nat (hi - b)) c (c k) b b) as [b' m]. cbn [snd] in Hm.
  specialize (IH (k + 1) b'). lia.
Qed.

Lemma entry_calls_nonneg A row j : 0 <= entry_calls A row j.
Proof.
  unfold entry_calls, edge_calls. destruct (cI A j >? row); [|lia].
  apply col_pure_nonneg.
Qed.

Lemma strided_nonneg start step f i : 0 <= f i -> 0 <= strided start step f i.
Proof.
  intros H. unfold strided.
  destruct ((start <=? i) && ((i - start) mod step =? 0)); lia.
Qed.

Lemma lane_calls_nonneg A row lane : 0 <= lane_calls A row lane.
Proof.
  unfold lane_calls. apply Sum_nonneg. intros i _.
  apply strided_nonneg, entry_calls_nonneg.
Qed.

Lemma thread_sum_nonneg A N G b t : 0 <= thread_sum A N G b t.
Proof.
  unfold thread_sum. apply Sum_nonneg. intros i _.
  apply strided_nonneg, lane_calls_nonneg.
Qed.

(** ** Launch configurations *)

Lemma launch_ok_Launch A N G B : launch_ok A N G B = true -> Launch A N G B.
Proof.
  unfold launch_ok. rewrite !andb_true_iff. intros [[[[H1 H2] H3] H4] H5].
  apply Z.leb_le in H1, H2, H3, H4, H5. constructor; lia.
Qed.

Lemma lane_wid_bounds t : 0 <= t < 1024 ->
  0 <= t mod warpSize < warpSize /\ 0 <= t / warpSize < 32.
Proof.
  intros H. unfold warpSize. split.
  - apply Z.mod_pos_bound. lia.
  - split; [apply Z.div_pos; lia | apply Z.div_lt_upper_bound; lia].
Qed.

Lemma thread_calls_pure A N G B b t :
  WF A N -> Launch A N G B -> 0 <= b < G -> 0 <= t < B ->
  thread_calls A N G b t = Some (thread_sum A N G b t).
Proof.
  intros W L Hb Ht. destruct L as [L1 L2 L3 L4].
  pose proof (wf_N _ _ W) as HN.
  destruct (lane_wid_bounds t ltac:(lia)) as [Hl Hw].
  unfold thread_calls, thread_sum. cbv zeta.
  rewrite !wrap32_id by int_range.
  rewrite (row_loop_pure A N W (t mod warpSize) (numberOfWarps * G));
    try assumption; try int_range.
  reflexivity.
Qed.

(** ** Arithmetic up to wrap-around *)

Lemma eqm_refl a : eqm a a.
Proof. reflexivity. Qed.

Lemma eqm_trans a b c : eqm a b -> eqm b c -> eqm a c.
Proof. unfold eqm. congruence. Qed.

Lemma eqm_wrap a : eqm (wrap32 a) a.
Proof. apply wrap32_idem. Qed.

Lemma eqm_add a a' b b' : eqm a a' -> eqm b b' -> eqm (a + b) (a' + b').
Proof.
  unfold eqm. intros H1 H2.
  rewrite <- wrap32_add_l, <- wrap32_add_r, H1, H2, wrap32_add_l, wrap32_add_r.
  reflexivity.
Qed.

Lemma eqm_of_eq a b : a = b -> eqm a b.
Proof. intros ->. apply eqm_refl. Qed.

Lemma sumZ_eqm n : forall lo f g,
  (forall i, lo <= i < lo + Z.of_nat n -> eqm (f i) (g i)) ->
  eqm (sumZ n lo f) (sumZ n lo g).
Proof.
  induction n as [|n IH]; intros lo f g H; simpl; [apply eqm_refl|].
  apply eqm_add; [apply H; lia|]. apply IH. intros i Hi. apply H. lia.
Qed.

Lemma Sum_eqm lo hi f g :
  (forall i, lo <= i < hi -> eqm (f i) (g i)) -> eqm (Sum lo hi f) (Sum lo hi g).
Proof. intros H. unfold Sum. apply sumZ_eqm. intros i Hi. apply H. lia. Qed.

Lemma sumZ_shift n : forall lo d f, sumZ n lo (fun i => f (i + d)) = sumZ n (lo + d) f.
Proof.
  induction n as [|n IH]; intros lo d f; simpl; [reflexivity|].
  rewrite IH. do 2 f_equal. lia.
Qed.

Lemma Sum_shift lo hi d f : Sum lo hi (fun i => f (i + d)) = Sum (lo + d) (hi + d) f.
Proof.
  unfold Sum. rewrite sumZ_shift. f_equal. f_equal. lia.
Qed.

(** The sum of a map updated at one slot. *)
Lemma Sum_upd lo hi f w x :
  lo <= w < hi -> Sum lo hi (upd f w x) = Sum lo hi f - f w + x.
Proof.
  intros H.
  rewrite (Sum_split lo w hi (upd f w x)), (Sum_split lo w hi f) by lia.
  rewrite (Sum_step w hi (upd f w x)), (Sum_step w hi f) by lia.
  unfold upd at 2. rewrite Z.eqb_refl.
  rewrite (Sum_ext lo w (upd f w x) f), (Sum_ext (w + 1) hi (upd f w x) f); [lia| |];
    intros i Hi; unfold upd; destruct (Z.eqb_spec i w); try reflexivity; lia.
Qed.

(** ** warpReduceSum *)

Lemma warp_ranks_idle gsize wid : forall n lo s, 1 <= lo ->
  fold_left (fun s rank => warpReduceSum_thread gsize rank wid s) (zseq lo n) s = s.
Proof.
  induction n as [|n IH]; intros lo s Hlo; simpl; [reflexivity|].
  unfold warpReduceSum_thread at 2. destruct (Z.eqb_spec lo 0); [lia|].
  apply IH. lia.
Qed.

Lemma warpReduceSum_nil wid s : warpReduceSum [] wid s = s.
Proof. reflexivity. Qed.

(** A non-empty group issues exactly one atomic add, of its size. *)
Lemma warpReduceSum_group g wid s : g <> [] ->
  warpReduceSum g wid s = sh_atomicAdd wid (Z.of_nat (length g)) s.
Proof.
  intros H. unfold warpReduceSum. destruct g as [|x g]; [congruence|].
  cbn [length zseq fold_left]. rewrite warp_ranks_idle by lia.
  reflexivity.
Qed.

Lemma sh_atomicAdd_other i v s j : j <> i -> cells (sh_atomicAdd i v s) j = cells s j.
Proof. intros H. simpl. unfold upd. destruct (Z.eqb_spec j i); [lia|reflexivity]. Qed.

Lemma sh_atomicAdd_same i v s : cells (sh_atomicAdd i v s) i = wrap32 (cells s i + v).
Proof. simpl. unfold upd. rewrite Z.eqb_refl. reflexivity. Qed.

Lemma warpReduceSum_other g wid s j : j <> wid -> cells (warpReduceSum g wid s) j = cells s j.
Proof.
  intros H. destruct g as [|x g]; [reflexivity|].
  rewrite warpReduceSum_group by discriminate. apply sh_atomicAdd_other, H.
Qed.

Lemma warpReduceSum_same g wid s :
  eqm (cells (warpReduceSum g wid s) wid) (cells s wid + Z.of_nat (length g)).
Proof.
  destruct g as [|x g].
  - rewrite warpReduceSum_nil. apply eqm_of_eq. simpl. lia.
  - rewrite warpReduceSum_group by discriminate. rewrite sh_atomicAdd_same.
    apply eqm_wrap.
Qed.

(** The total size of the groups of a schedule. *)
Lemma warp_groups_other gs wid : forall s j, j <> wid ->
  cells (warp_groups gs wid s) j = cells s j.
Proof.
  induction gs as [|g gs IH]; intros s j H; [reflexivity|].
  unfold warp_groups in *. cbn [fold_left]. rewrite IH by assumption.
  apply warpReduceSum_other, H.
Qed.

Lemma warp_groups_same gs wid : forall s,
  eqm (cells (warp_groups gs wid s) wid)
      (cells s wid + Z.of_nat (length (concat gs))).
Proof.
  induction gs as [|g gs IH]; intros s.
  - apply eqm_of_eq. simpl. lia.
  - unfold warp_groups in *. cbn [fold_left concat]. rewrite length_app.
    eapply eqm_trans; [apply IH|].
    replace (cells s wid + Z.of_nat (length g + length (concat gs)))
      with (cells s wid + Z.of_nat (length g) + Z.of_nat (length (concat gs))) by lia.
    apply eqm_add; [apply warpReduceSum_same | apply eqm_refl].
Qed.

Lemma warp_groups_int gs wid : forall s,
  INT_MIN <= cells s wid <= INT_MAX ->
  INT_MIN <= cells (warp_groups gs wid s) wid <= INT_MAX.
Proof.
  induction gs as [|g gs IH]; intros s H; [exact H|].
  unfold warp_groups in *. cbn [fold_left]. apply IH.
  destruct g as [|x g]; [exact H|].
  rewrite warpReduceSum_group by discriminate. rewrite sh_atomicAdd_same.
  apply wrap32_range.
Qed.

Lemma concat_repeat_single (x : Z) n : length (concat (repeat [x] n)) = n.
Proof. induction n as [|n IH]; simpl; [reflexivity|]. rewrite IH. reflexivity. Qed.

(** ** The phases of a block *)

Lemma init_thread_cells t s i : 0 <= t ->
  cells (init_thread t s) i = if (t <? warpSize) && (i =? t) then 0 else cells s i.
Proof.
  intros Ht. unfold init_thread, warpSize. destruct (Z.ltb_spec t 32) as [H|H].
  - rewrite Z.div_small, Z.mod_small by lia. simpl. unfold upd.
    destruct (i =? t); reflexivity.
  - assert (1 <= t / 32) by (apply Z.div_le_lower_bound; lia).
    destruct (Z.eqb_spec (t / 32) 0); [lia|]. reflexivity.
Qed.

Lemma block_init_from_cells i : forall n lo s, 0 <= lo ->
  cells (fold_left (fun s t => init_thread t s) (zseq lo n) s) i
  = if (lo <=? i) && (i <? Z.min (lo + Z.of_nat n) warpSize) then 0 else cells s i.
Proof.
  induction n as [|n IH]; intros lo s Hlo; cbn [zseq fold_left].
  - destruct (Z.leb_spec lo i); destruct (Z.ltb_spec i (Z.min (lo + Z.of_nat 0) warpSize));
      simpl; try reflexivity; lia.
  - rewrite IH by lia. rewrite init_thread_cells by lia.
    destruct (Z.leb_spec (lo + 1) i); destruct (Z.leb_spec lo i);
      destruct (Z.ltb_spec i (Z.min (lo + 1 + Z.of_nat n) warpSize));
      destruct (Z.ltb_spec i (Z.min (lo + Z.of_nat (S n)) warpSize));
      destruct (Z.ltb_spec lo warpSize); destruct (Z.eqb_spec i lo);
      cbn [andb]; try reflexivity; lia.
Qed.

(** Line 124 zeroes the slots of the lanes of warp 0, and nothing else. *)
Lemma block_init_cells B s i : 0 <= B ->
  cells (block_init B s) i
  = if (0 <=? i) && (i <? Z.min B warpSize) then 0 else cells s i.
Proof.
  intros HB. unfold block_init, zrange. rewrite block_init_from_cells by lia.
  replace (0 + Z.of_nat (Z.to_nat (B - 0))) with B by lia. reflexivity.
Qed.

(** The row phase of the threads [ts]: it fails exactly when the loops of
    one of them fail; otherwise it leaves alone the slots of other warps
    and adds the calls, up to wrap-around, to any window that holds the
    slots of the warps of [ts]. *)
Lemma block_rows_from_spec A N G b ts : forall s,
  match block_calls_from A N G b ts with
  | None => block_rows_from A N G b ts s = None
  | Some d =>
    exists s', block_rows_from A N G b ts s = Some s'
      /\ (forall j, (forall t, In t ts -> t / warpSize <> j) -> cells s' j = cells s j)
      /\ (forall g, (forall t, In t ts -> 0 <= t / warpSize < g) ->
            eqm (Sum 0 g (cells s')) (Sum 0 g (cells s) + d))
  end.
Proof.
  induction ts as [|t ts IH]; intros s; cbn [block_calls_from block_rows_from].
  - exists s. split; [reflexivity|]. split; [reflexivity|].
    intros g _. apply eqm_of_eq. lia.
  - unfold rows_thread. destruct (thread_calls A N G b t) as [c|]; cbn [obind]; [|reflexivity].
    set (s1 := warp_groups (repeat [t mod warpSize] (Z.to_nat c)) (t / warpSize) s).
    specialize (IH s1).
    destruct (block_calls_from A N G b ts) as [r|]; cbn [obind]; [|exact IH].
    destruct IH as (s' & E & Hother & Hsum). exists s'. split; [exact E|]. split.
    + intros j Hj. rewrite Hother by (intros t' Ht'; apply Hj; right; exact Ht').
      apply warp_groups_other. intros ->. apply (Hj t); [left; reflexivity|reflexivity].
    + intros g Hg. eapply eqm_trans; [apply Hsum; intros t' Ht'; apply Hg; right; exact Ht'|].
      replace (Sum 0 g (cells s) + (Z.of_nat (Z.to_nat c) + r))
        with (Sum 0 g (cells s) + Z.of_nat (Z.to_nat c) + r) by lia.
      apply eqm_add; [|apply eqm_refl].
      pose proof (Hg t (or_introl eq_refl)) as Hw.
      assert (Hpt : Sum 0 g (cells s1)
                    = Sum 0 g (cells s) - cells s (t / warpSize) + cells s1 (t / warpSize)).
      { rewrite <- (Sum_upd 0 g (cells s) (t / warpSize)) by lia.
        apply Sum_ext. intros i Hi. unfold upd.
        destruct (Z.eqb_spec i (t / warpSize)) as [->|Hne]; [reflexivity|].
        apply warp_groups_other, Hne. }
      rewrite Hpt.
      replace (Sum 0 g (cells s) + Z.of_nat (Z.to_nat c))
        with (Sum 0 g (cells s) - cells s (t / warpSize)
              + (cells s (t / warpSize) + Z.of_nat (Z.to_nat c))) by lia.
      apply eqm_add; [apply eqm_refl|].
      pose proof (warp_groups_same (repeat [t mod warpSize] (Z.to_nat c)) (t / warpSize) s) as H.
      rewrite concat_repeat_single in H. exact H.
Qed.

(** ** blockReduceSum *)

Lemma sh_add_from_cells dst src s j :
  cells (sh_add_from dst src s) j
  = if j =? dst then wrap32 (cells s dst + cells s src) else cells s j.
Proof. reflexivity. Qed.

Lemma reduce_round_from_cells i l : 0 < i -> forall n lo s, 0 <= lo ->
  cells (fold_left (fun s lane => if lane <? i then sh_add_from lane (lane + i) s else s)
                   (zseq lo n) s) l
  = if (lo <=? l) && (l <? Z.min (lo + Z.of_nat n) i)
    then wrap32 (cells s l + cells s (l + i)) else cells s l.
Proof.
  intros Hi. induction n as [|n IH]; intros lo s Hlo; cbn [zseq fold_left].
  - destruct (Z.leb_spec lo l); destruct (Z.ltb_spec l (Z.min (lo + Z.of_nat 0) i));
      simpl; try reflexivity; lia.
  - rewrite IH by lia.
    destruct (Z.ltb_spec lo i) as [Hlt|Hge].
    + rewrite !sh_add_from_cells.
      destruct (Z.leb_spec (lo + 1) l); destruct (Z.leb_spec lo l);
        destruct (Z.ltb_spec l (Z.min (lo + 1 + Z.of_nat n) i));
        destruct (Z.ltb_spec l (Z.min (lo + Z.of_nat (S n)) i));
        destruct (Z.eqb_spec l lo); destruct (Z.eqb_spec (l + i) lo);
        cbn [andb]; try reflexivity; try lia.
      subst l. reflexivity.
    + destruct (Z.leb_spec (lo + 1) l); destruct (Z.leb_spec lo l);
        destruct (Z.ltb_spec l (Z.min (lo + 1 + Z.of_nat n) i));
        destruct (Z.ltb_spec l (Z.min (lo + Z.of_nat (S n)) i));
        cbn [andb]; try reflexivity; lia.
Qed.

(** One round: every lane below [i] adds slot [lane + i] into slot [lane]. *)
Lemma reduce_round_cells g i s l : 0 <= g -> 0 < i ->
  cells (reduce_round g i s) l
  = if (0 <=? l) && (l <? Z.min g i)
    then wrap32 (cells s l + cells s (l + i)) else cells s l.
Proof.
  intros Hg Hi. unfold reduce_round, zrange.
  rewrite reduce_round_from_cells by lia.
  replace (0 + Z.of_nat (Z.to_nat (g - 0))) with g by lia. reflexivity.
Qed.

Lemma reduce_round_sum g i s : 0 < i -> i <= g ->
  eqm (Sum 0 i (cells (reduce_round g i s))) (Sum 0 (2 * i) (cells s)).
Proof.
  intros Hi Hg.
  rewrite (Sum_split 0 i (2 * i) (cells s)) by lia.
  replace (Sum i (2 * i) (cells s)) with (Sum 0 i (fun l => cells s (l + i)))
    by (rewrite Sum_shift; f_equal; lia).
  rewrite <- Sum_add. apply Sum_eqm. intros l Hl.
  rewrite reduce_round_cells by lia.
  destruct (Z.leb_spec 0 l); destruct (Z.ltb_spec l (Z.min g i)); cbn [andb]; try lia.
  apply eqm_wrap.
Qed.

(** With a power of two of lanes the halving tree folds every slot. *)
Lemma reduce_pow2 g k : forall fuel s,
  2 ^ (Z.of_nat k + 1) <= g -> (k < fuel)%nat ->
  cells (reduce_rounds fuel g (2 ^ Z.of_nat k) s) 0
  = wrap32 (Sum 0 (2 ^ (Z.of_nat k + 1)) (cells s)).
Proof.
  induction k as [|k IH]; intros fuel s Hg Hf; (destruct fuel as [|fuel]; [lia|]).
  - change (2 ^ Z.of_nat 0) with 1 in *. change (2 ^ (Z.of_nat 0 + 1)) with 2 in *.
    cbn [reduce_rounds]. change (0 <? 1) with true. cbv iota.
    change (1 / 2) with 0.
    assert (E : reduce_rounds fuel g 0 (reduce_round g 1 s) = reduce_round g 1 s).
    { destruct fuel; reflexivity. }
    rewrite E, reduce_round_cells by lia.
    destruct (Z.ltb_spec 0 (Z.min g 1)); [|lia]. cbn [Z.leb andb].
    change (0 <=? 0) with true. cbn [andb].
    rewrite (Sum_step 0 2), (Sum_step (0 + 1) 2), Sum_nil by lia.
    f_equal. simpl. lia.
  - assert (Hp : 0 < 2 ^ Z.of_nat k) by (apply Z.pow_pos_nonneg; lia).
    assert (E1 : 2 ^ Z.of_nat (S k) = 2 * 2 ^ Z.of_nat k).
    { rewrite Nat2Z.inj_succ, Z.pow_succ_r by lia. reflexivity. }
    assert (E2 : 2 ^ (Z.of_nat (S k) + 1) = 2 * 2 ^ Z.of_nat (S k)).
    { rewrite Z.add_1_r, Z.pow_succ_r by lia. reflexivity. }
    assert (E3 : 2 ^ (Z.of_nat k + 1) = 2 ^ Z.of_nat (S k)).
    { rewrite Nat2Z.inj_succ, Z.add_1_r. reflexivity. }
    cbn [reduce_rounds].
    destruct (Z.ltb_spec 0 (2 ^ Z.of_nat (S k))); [|lia].
    replace (2 ^ Z.of_nat (S k) / 2) with (2 ^ Z.of_nat k)
      by (rewrite E1, Z.mul_comm, Z.div_mul by lia; reflexivity).
    rewrite IH by lia. rewrite E3, E2.
    apply reduce_round_sum; lia.
Qed.

Lemma blockReduceSum_warp s :
  cells (blockReduceSum warpSize s) 0 = wrap32 (Sum 0 warpSize (cells s)).
Proof.
  unfold blockReduceSum, warpSize. change (32 / 2) with (2 ^ Z.of_nat 4).
  rewrite reduce_pow2.
  - reflexivity.
  - simpl. lia.
  - lia.
Qed.

(** When only slot 0 is used the tree leaves it as it is. *)
Lemma reduce_zeros g : forall fuel i s,
  0 <= i -> 2 * i <= g -> (forall j, 1 <= j < g -> cells s j = 0) ->
  eqm (cells (reduce_rounds fuel g i s) 0) (cells s 0).
Proof.
  induction fuel as [|fuel IH]; intros i s Hi Hg Hz; cbn [reduce_rounds].
  - apply eqm_refl.
  - destruct (Z.ltb_spec 0 i); [|apply eqm_refl].
    assert (Hh : 0 <= i / 2) by (apply Z.div_pos; lia).
    assert (Hh2 : 2 * (i / 2) <= i) by (apply Z.mul_div_le; lia).
    eapply eqm_trans.
    + apply IH; try lia.
      intros j Hj. rewrite reduce_round_cells by lia.
      destruct ((0 <=? j) && (j <? Z.min g i)) eqn:E.
      * apply andb_true_iff in E. destruct E as [E1 E2].
        apply Z.leb_le in E1. apply Z.ltb_lt in E2.
        rewrite (Hz j), (Hz (j + i)) by lia. reflexivity.
      * apply Hz, Hj.
    + rewrite reduce_round_cells by lia.
      destruct (Z.ltb_spec 0 (Z.min g i)); [|lia].
      change (0 <=? 0) with true. cbn [andb].
      rewrite (Hz (0 + i)) by lia. eapply eqm_trans; [apply eqm_wrap|].
      apply eqm_of_eq. lia.
Qed.

(** The fuel of [blockReduceSum] is never used up: more fuel changes nothing. *)
Lemma reduce_rounds_enough g : forall fuel i s extra,
  0 <= i <= Z.of_nat fuel ->
  reduce_rounds (fuel + extra) g i s = reduce_rounds fuel g i s.
Proof.
  induction fuel as [|fuel IH]; intros i s extra Hi.
  - assert (i = 0) by lia. subst i. destruct extra; reflexivity.
  - cbn [Nat.add reduce_rounds]. destruct (Z.ltb_spec 0 i); [|reflexivity].
    apply IH. split; [apply Z.div_pos; lia|].
    assert (i / 2 < i) by (apply Z.div_lt; lia). lia.
Qed.

(** What the tree leaves in slot 0, for the group sizes of a block. *)
Lemma blockReduceSum_total g s :
  1 <= g <= warpSize ->
  g = warpSize \/ (forall j, 1 <= j < g -> cells s j = 0) ->
  eqm (cells (blockReduceSum g s) 0) (Sum 0 g (cells s)).
Proof.
  intros Hg [->|Hz].
  - rewrite blockReduceSum_warp. apply eqm_wrap.
  - unfold blockReduceSum. eapply eqm_trans.
    + apply reduce_zeros; [apply Z.div_pos; lia | apply Z.mul_div_le; lia | exact Hz].
    + apply eqm_of_eq. rewrite (Sum_step 0 g) by lia.
      rewrite (Sum_zero (0 + 1) g) by (intros j Hj; apply Hz; lia). lia.
Qed.

(** ** What a block and the grid add to the accumulator *)

Lemma block_result A N G B b s nT : 1 <= B <= 1024 ->
  option_map snd (cuFindTriangles_block A N G B b s nT)
  = option_map (fun d => wrap32 (nT + d)) (block_calls A N G B b).
Proof.
  intros HB. unfold cuFindTriangles_block, block_rows, block_calls.
  pose proof (block_rows_from_spec A N G b (zrange 0 B) (block_init B s)) as H.
  destruct (block_calls_from A N G b (zrange 0 B)) as [d|]; [|rewrite H; reflexivity].
  destruct H as (s' & E & Hother & Hsum). rewrite E. cbn [obind option_map block_commit snd].
  f_equal. apply eqm_add; [apply eqm_refl|].
  assert (Hwid : forall t, In t (zrange 0 B) -> 0 <= t / warpSize < Z.min B warpSize).
  { intros t Ht. apply in_zrange in Ht. unfold warpSize.
    destruct (Z.le_gt_cases 32 B).
    - rewrite Z.min_r by lia. split; [apply Z.div_pos; lia|].
      apply Z.div_lt_upper_bound; lia.
    - rewrite Z.div_small by lia. lia. }
  assert (Hinit : forall j, 0 <= j < Z.min B warpSize -> cells (block_init B s) j = 0).
  { intros j Hj. rewrite block_init_cells by lia.
    destruct (Z.leb_spec 0 j); destruct (Z.ltb_spec j (Z.min B warpSize));
      cbn [andb]; try reflexivity; lia. }
  unfold block_reduce. eapply eqm_trans.
  - apply blockReduceSum_total; [unfold warpSize; lia|].
    destruct (Z.le_gt_cases warpSize B) as [Hge|Hlt]; [left; lia|right].
    intros j Hj. rewrite Hother.
    + apply Hinit. lia.
    + intros t Ht. apply in_zrange in Ht. unfold warpSize in *.
      rewrite Z.div_small by lia. lia.
  - eapply eqm_trans; [apply Hsum, Hwid|].
    apply eqm_of_eq. rewrite (Sum_zero 0 _ (cells (block_init B s))) by exact Hinit. lia.
Qed.

Lemma grid_from_result A N G B u : 1 <= B <= 1024 ->
  forall bs nT, INT_MIN <= nT <= INT_MAX ->
  grid_from A N G B u bs nT
  = option_map (fun d => wrap32 (nT + d)) (grid_calls_from A N G B bs).
Proof.
  intros HB. induction bs as [|b bs IH]; intros nT HnT; cbn [grid_from grid_calls_from].
  - cbn [option_map]. rewrite Z.add_0_r, wrap32_id by assumption. reflexivity.
  - pose proof (block_result A N G B b (mkShmem (u b) []) nT HB) as H.
    destruct (cuFindTriangles_block A N G B b (mkShmem (u b) []) nT) as [[s' nT']|];
      destruct (block_calls A N G B b) as [d|]; cbn [option_map snd obind] in *;
      try discriminate; [|reflexivity].
    injection H as ->. rewrite IH by apply wrap32_range.
    destruct (grid_calls_from A N G B bs) as [r|]; cbn [option_map obind]; [|reflexivity].
    rewrite wrap32_add_l. do 2 f_equal. lia.
Qed.

(** The kernel adds to the accumulator, up to wrap-around, the number of
    calls of [warpReduceSum] of the whole grid, whatever the shared memory
    held before; it fails when the loops of a thread fail. *)
Lemma cuFindTriangles_result A N G B u nT :
  1 <= B <= 1024 -> INT_MIN <= nT <= INT_MAX ->
  cuFindTriangles A N G B u nT
  = option_map (fun d => wrap32 (nT + d)) (grid_calls A N G B).
Proof. intros HB HnT. apply grid_from_result; assumption. Qed.

Lemma block_calls_from_pure A N G B b :
  WF A N -> Launch A N G B -> 0 <= b < G ->
  forall n lo, 0 <= lo -> lo + Z.of_nat n <= B ->
  block_calls_from A N G b (zseq lo n) = Some (sumZ n lo (thread_sum A N G b)).
Proof.
  intros W L Hb. induction n as [|n IH]; intros lo Hlo Hn; cbn [zseq block_calls_from sumZ].
  - reflexivity.
  - rewrite (thread_calls_pure A N G B) by (try assumption; lia). cbn [obind].
    rewrite IH by lia. cbn [obind].
    pose proof (thread_sum_nonneg A N G b lo). do 2 f_equal. lia.
Qed.

Lemma block_calls_pure A N G B b :
  WF A N -> Launch A N G B -> 0 <= b < G ->
  block_calls A N G B b = Some (Sum 0 B (thread_sum A N G b)).
Proof.
  intros W L Hb. unfold block_calls, zrange, Sum.
  pose proof (la_block _ _ _ _ L).
  apply (block_calls_from_pure A N G B); try assumption; lia.
Qed.

Lemma grid_calls_from_pure A N G B :
  WF A N -> Launch A N G B ->
  forall n lo, 0 <= lo -> lo + Z.of_nat n <= G ->
  grid_calls_from A N G B (zseq lo n)
  = Some (sumZ n lo (fun b => Sum 0 B (thread_sum A N G b))).
Proof.
  intros W L. induction n as [|n IH]; intros lo Hlo Hn; cbn [zseq grid_calls_from sumZ].
  - reflexivity.
  - rewrite block_calls_pure by (try assumption; lia). cbn [obind].
    rewrite IH by lia. reflexivity.
Qed.

Lemma grid_calls_pure A N G B :
  WF A N -> Launch A N G B ->
  grid_calls A N G B = Some (Sum 0 G (fun b => Sum 0 B (thread_sum A N G b))).
Proof.
  intros W L. unfold grid_calls, zrange, Sum.
  pose proof (la_grid _ _ _ _ L).
  apply grid_calls_from_pure; try assumption; lia.
Qed.

(** ** Every row and every entry is visited once *)

Lemma Sum_divmod m n (F : Z -> Z -> Z) : 0 < n ->
  Sum 0 (Z.of_nat m * n) (fun t => F (t / n) (t mod n))
  = Sum 0 (Z.of_nat m) (fun w => Sum 0 n (F w)).
Proof.
  intros Hn. induction m as [|m IH].
  - rewrite !Sum_nil by lia. reflexivity.
  - assert (0 <= Z.of_nat m * n) by nia.
    rewrite (Sum_split 0 (Z.of_nat m * n) (Z.of_nat (S m) * n)) by nia.
    rewrite IH. rewrite (Sum_last 0 (Z.of_nat (S m))) by lia.
    replace (Z.of_nat (S m) - 1) with (Z.of_nat m) by lia. f_equal.
    replace (Z.of_nat (S m) * n) with (n + Z.of_nat m * n) by lia.
    replace (Z.of_nat m * n) with (0 + Z.of_nat m * n) at 1 by lia.
    rewrite <- (Sum_shift 0 n (Z.of_nat m * n) (fun t => F (t / n) (t mod n))).
    apply Sum_ext. intros l Hl. cbv beta.
    rewrite Z.div_add, Z.mod_add by lia.
    rewrite Z.div_small, Z.mod_small by lia. reflexivity.
Qed.

(** Among [S] consecutive starting points exactly one reaches index [i]. *)
Lemma strided_cover lo S f i : 0 < S -> lo <= i ->
  Sum 0 S (fun u => strided (lo + u) S f i) = f i.
Proof.
  intros HS Hi.
  rewrite <- (Sum_single 0 S ((i - lo) mod S) (fun _ => f i))
    by (apply Z.mod_pos_bound; lia).
  apply Sum_ext. intros u Hu. unfold strided.
  pose proof (Z.mod_pos_bound (i - lo) S HS) as Hm.
  pose proof (Z.div_mod (i - lo) S ltac:(lia)) as Hd.
  destruct (Z.eqb_spec u ((i - lo) mod S)) as [->|Hne].
  - destruct (Z.leb_spec (lo + (i - lo) mod S) i) as [_|Hc].
    + replace (i - (lo + (i - lo) mod S)) with ((i - lo) / S * S) by lia.
      rewrite Z.mod_mul by lia. reflexivity.
    + exfalso. assert (0 <= (i - lo) / S) by (apply Z.div_pos; lia). nia.
  - destruct (Z.leb_spec (lo + u) i); cbn [andb]; [|reflexivity].
    destruct (Z.eqb_spec ((i - (lo + u)) mod S) 0) as [E|E]; [|reflexivity].
    exfalso. apply Hne.
    apply Z.mod_divide in E; [|lia]. destruct E as [q E].
    replace (i - lo) with (u + q * S) by lia.
    rewrite Z.mod_add, Z.mod_small by lia. reflexivity.
Qed.

(** The lanes of a full warp visit every entry of a row once. *)
Lemma lanes_cover A row :
  Sum 0 warpSize (lane_calls A row) = row_calls A row.
Proof.
  unfold lane_calls, row_calls. rewrite Sum_swap.
  apply Sum_ext. intros j Hj. apply strided_cover; [reflexivity | lia].
Qed.

(** With [numberOfWarps] full warps in every block, the threads of the grid
    visit every row once. *)
Lemma grid_cover A N G : 0 <= N -> 1 <= G ->
  Sum 0 G (fun b => Sum 0 (numberOfWarps * warpSize) (thread_sum A N G b))
  = total_calls A N.
Proof.
  intros HN HG.
  set (S := numberOfWarps * G).
  set (H := fun u => Sum 0 warpSize (fun lane =>
              Sum 0 N (strided u S (fun row => lane_calls A row lane)))).
  transitivity (Sum 0 G (fun b => Sum 0 numberOfWarps (fun w => H (w + b * numberOfWarps)))).
  { apply Sum_ext. intros b Hb.
    pose proof (Sum_divmod 8 warpSize
              (fun w lane => Sum 0 N (strided (w + b * numberOfWarps) S
                                        (fun row => lane_calls A row lane)))
              ltac:(reflexivity)) as E.
    exact E. }
  transitivity (Sum 0 (G * numberOfWarps) H).
  { pose proof (Sum_divmod (Z.to_nat G) numberOfWarps
                  (fun b w => H (w + b * numberOfWarps)) ltac:(reflexivity)) as E.
    rewrite Z2Nat.id in E by lia. rewrite <- E.
    apply Sum_ext. intros u Hu. cbv beta. f_equal.
    pose proof (Z.div_mod u numberOfWarps ltac:(unfold numberOfWarps; lia)). lia. }
  replace (G * numberOfWarps) with S by (unfold S; lia).
  unfold H, total_calls.
  rewrite Sum_swap.
  transitivity (Sum 0 warpSize (fun lane => Sum 0 N (fun row => lane_calls A row lane))).
  { apply Sum_ext. intros lane Hl. rewrite Sum_swap. apply Sum_ext. intros row Hrow.
    rewrite <- (strided_cover 0 S (fun row => lane_calls A row lane) row)
      by (unfold S, numberOfWarps; lia).
    apply Sum_ext. intros u Hu. reflexivity. }
  rewrite Sum_swap. apply Sum_ext. intros row Hrow. apply lanes_cover.
Qed.

(** With [numberOfWarps] full warps per block the kernel adds the calls of
    all rows to the accumulator. *)
Lemma kernel_total A N G u nT :
  WF A N -> Launch A N G (numberOfWarps * warpSize) -> INT_MIN <= nT <= INT_MAX ->
  cuFindTriangles A N G (numberOfWarps * warpSize) u nT
  = Some (wrap32 (nT + total_calls A N)).
Proof.
  intros W L HnT.
  rewrite cuFindTriangles_result by (try assumption; unfold numberOfWarps, warpSize; lia).
  rewrite grid_calls_pure by assumption. cbn [option_map].
  rewrite grid_cover; [reflexivity | apply (wf_N _ _ W) | apply (la_grid _ _ _ _ L)].
Qed.

(** ** Sorted rows *)

Lemma row_by_adjacent cmp A r :
  row_by cmp A r = true ->
  forall l, rP A r <= l -> l + 1 < rP A (r + 1) -> cmp (cI A l) (cI A (l + 1)) = true.
Proof.
  intros H l H1 H2. unfold row_by in H.
  apply (forallb_zrange _ _ _ H l). lia.
Qed.

Lemma rows_by_row cmp A N r : rows_by cmp A N = true -> 0 <= r < N -> row_by cmp A r = true.
Proof.
  intros H Hr. unfold rows_by in H. exact (forallb_zrange _ _ _ H r Hr).
Qed.

Lemma row_strict_sorted A r : row_by Z.ltb A r = true -> row_by Z.leb A r = true.
Proof.
  unfold row_by. rewrite !forallb_forall. intros H l Hl.
  specialize (H l Hl). apply Z.ltb_lt in H. apply Z.leb_le. lia.
Qed.

Lemma row_sorted_le A r : row_by Z.leb A r = true ->
  forall l1 l2, rP A r <= l1 -> l1 <= l2 -> l2 < rP A (r + 1) -> cI A l1 <= cI A l2.
Proof.
  intros H l1 l2 H1 H2 H3.
  replace l2 with (l1 + Z.of_nat (Z.to_nat (l2 - l1))) in * by lia.
  induction (Z.to_nat (l2 - l1)) as [|n IH]; [rewrite Z.add_0_r; lia|].
  pose proof (row_by_adjacent _ _ _ H (l1 + Z.of_nat n) ltac:(lia) ltac:(lia)) as Ha.
  apply Z.leb_le in Ha.
  replace (l1 + Z.of_nat (S n)) with (l1 + Z.of_nat n + 1) in * by lia.
  specialize (IH ltac:(lia) ltac:(lia)). lia.
Qed.

Lemma row_strict_lt A r : row_by Z.ltb A r = true ->
  forall l1 l2, rP A r <= l1 -> l1 < l2 -> l2 < rP A (r + 1) -> cI A l1 < cI A l2.
Proof.
  intros H l1 l2 H1 H2 H3.
  pose proof (row_by_adjacent _ _ _ H l1 ltac:(lia) ltac:(lia)) as Ha.
  apply Z.ltb_lt in Ha.
  pose proof (row_sorted_le _ _ (row_strict_sorted _ _ H) (l1 + 1) l2
                ltac:(lia) ltac:(lia) ltac:(lia)).
  lia.
Qed.

(** ** The scan against a sorted slice *)

Section Scan.

Variables (c : Z -> Z) (hi : Z).

(** On a slice sorted from [l] on, the scan counts the entries equal to [x]
    and leaves the cursor where it was or on the first larger entry. *)
Lemma scan_pure_sorted x b : forall n l,
  l + Z.of_nat n = hi ->
  (forall i1 i2, l <= i1 -> i1 <= i2 -> i2 < hi -> c i1 <= c i2) ->
  snd (scan_pure n c x l b) = Sum l hi (fun i => ind (x =? c i))
  /\ ((fst (scan_pure n c x l b) = b /\ forall i, l <= i < hi -> c i <= x)
      \/ (l <= fst (scan_pure n c x l b) < hi
          /\ forall i, l <= i < fst (scan_pure n c x l b) -> c i <= x)).
Proof.
  induction n as [|n IH]; intros l Hn Hs; cbn [scan_pure].
  - cbn [fst snd]. rewrite Sum_nil by lia. split; [reflexivity|].
    left. split; [reflexivity|]. intros i Hi. lia.
  - rewrite (Sum_step l hi) by lia.
    specialize (IH (l + 1) ltac:(lia)
                  ltac:(intros i1 i2 H1 H2 H3; apply Hs; lia)).
    destruct (Z.eqb_spec x (c l)) as [E|E].
    + destruct (scan_pure n c x (l + 1) b) as [b' m]. cbn [fst snd] in *.
      destruct IH as [IH1 IH2]. split; [change (ind true) with 1; change (ind false) with 0; lia|].
      destruct IH2 as [[H1 H2]|[H1 H2]].
      * left. split; [assumption|]. intros i Hi.
        destruct (Z.eq_dec i l) as [->|]; [lia|apply H2; lia].
      * right. split; [lia|]. intros i Hi.
        destruct (Z.eq_dec i l) as [->|]; [lia|apply H2; lia].
    + destruct (Z.gtb_spec (c l) x) as [G|G]; cbn [fst snd].
      * split.
        -- rewrite Sum_zero; [change (ind false) with 0; lia|]. intros i Hi.
           pose proof (Hs l i ltac:(lia) ltac:(lia) ltac:(lia)).
           destruct (Z.eqb_spec x (c i)); [lia|reflexivity].
        -- right. split; [lia|]. intros i Hi. lia.
      * destruct IH as [IH1 IH2]. split; [change (ind true) with 1; change (ind false) with 0; lia|].
        destruct IH2 as [[H1 H2]|[H1 H2]].
        -- left. split; [assumption|]. intros i Hi.
           destruct (Z.eq_dec i l) as [->|]; [lia|apply H2; lia].
        -- right. split; [lia|]. intros i Hi.
           destruct (Z.eq_dec i l) as [->|]; [lia|apply H2; lia].
Qed.

Variables (lo khi : Z).
Hypothesis row_sorted : forall i1 i2, lo <= i1 -> i1 <= i2 -> i2 < hi -> c i1 <= c i2.

(** With the entries of [col] strictly ascending, the cursor never passes
    an entry that a later [csc_row] could match: the [k] loop counts the
    pairs of equal entries. *)
Lemma col_pure_pairs : forall n k b,
  k + Z.of_nat n = khi ->
  (forall k1 k2, k <= k1 -> k1 < k2 -> k2 < khi -> c k1 < c k2) ->
  lo <= b <= hi ->
  (forall i k', lo <= i < b -> k <= k' < khi -> c i < c k') ->
  col_pure n c hi k b
  = Sum k khi (fun k' => Sum lo hi (fun i => ind (c k' =? c i))).
Proof.
  induction n as [|n IH]; intros k b Hn Hk Hb Hpre; cbn [col_pure].
  - rewrite Sum_nil by lia. reflexivity.
  - rewrite (Sum_step k khi) by lia.
    destruct (scan_pure_sorted (c k) b (Z.to_nat (hi - b)) b ltac:(lia)
                ltac:(intros i1 i2 H1 H2 H3; apply row_sorted; lia)) as [Hm Hc].
    destruct (scan_pure (Z.to_nat (hi - b)) c (c k) b b) as [b' m]. cbn [fst snd] in *.
    assert (Hm' : m = Sum lo hi (fun i => ind (c k =? c i))).
    { rewrite (Sum_split lo b hi) by lia. rewrite <- Hm.
      rewrite Sum_zero; [lia|]. intros i Hi.
      pose proof (Hpre i k ltac:(lia) ltac:(lia)).
      destruct (Z.eqb_spec (c k) (c i)); [lia|reflexivity]. }
    rewrite <- Hm'. f_equal.
    apply IH.
    + lia.
    + intros k1 k2 H1 H2 H3. apply Hk; lia.
    + destruct Hc as [[-> _]|[H1 _]]; lia.
    + intros i k' Hi Hk'.
      pose proof (Hk k k' ltac:(lia) ltac:(lia) ltac:(lia)) as Hlt.
      destruct (Z.lt_ge_cases i b) as [Hib|Hib].
      * pose proof (Hpre i k ltac:(lia) ltac:(lia)). lia.
      * destruct Hc as [[-> _]|[H1 H2]]; [lia|].
        pose proof (H2 i ltac:(lia)). lia.
Qed.

End Scan.

(** ** What is recorded for an edge *)

(** When [col]'s entries are strictly ascending and [row]'s are ascending,
    the memoized scan records the number of pairs of equal entries. *)
Lemma edge_calls_naive A N row col :
  WF A N -> 0 <= row < N -> 0 <= col < N ->
  row_by Z.leb A row = true -> row_by Z.ltb A col = true ->
  edge_calls A row col = naive_intersection A row col.
Proof.
  intros W Hrow Hcol Hr Hc. unfold edge_calls, naive_intersection.
  pose proof (wf_mono _ _ W row ltac:(lia)).
  pose proof (wf_mono _ _ W col ltac:(lia)).
  apply (col_pure_pairs (cI A) (rP A (row + 1)) (rP A row) (rP A (col + 1))).
  - intros i1 i2 H1 H2 H3. apply (row_sorted_le A row Hr); lia.
  - lia.
  - intros k1 k2 H1 H2 H3. apply (row_strict_lt A col Hc); lia.
  - lia.
  - intros i k' Hi. lia.
Qed.

Lemma ind_and a b : ind (a && b) = ind a * ind b.
Proof. destruct a, b; reflexivity. Qed.

Lemma ind_eqb_point N x y : 0 <= x < N ->
  Sum 0 N (fun w => ind (x =? w) * ind (y =? w)) = ind (x =? y).
Proof.
  intros Hx.
  rewrite (Sum_ext 0 N _ (fun w => if w =? x then ind (y =? w) else 0)).
  - rewrite Sum_single by assumption. rewrite (Z.eqb_sym y x). reflexivity.
  - intros w Hw. rewrite (Z.eqb_sym x w). destruct (w =? x); unfold ind; simpl.
    + destruct (y =? w); reflexivity.
    + reflexivity.
Qed.

(** The pairs of equal entries, counted column by column. *)
Lemma naive_intersection_mult A N row col :
  WF A N -> 0 <= row < N -> 0 <= col < N ->
  naive_intersection A row col = Sum 0 N (fun w => mult A row w * mult A col w).
Proof.
  intros W Hrow Hcol. unfold naive_intersection, mult.
  pose proof (rP_bounds _ _ W col ltac:(lia)).
  pose proof (rP_bounds _ _ W (col + 1) ltac:(lia)).
  transitivity (Sum (rP A col) (rP A (col + 1)) (fun k =>
                  Sum (rP A row) (rP A (row + 1)) (fun l =>
                    Sum 0 N (fun w => ind (cI A k =? w) * ind (cI A l =? w))))).
  { apply Sum_ext. intros k Hk. apply Sum_ext. intros l Hl.
    symmetry. apply ind_eqb_point. apply (wf_cols _ _ W). lia. }
  transitivity (Sum (rP A col) (rP A (col + 1)) (fun k =>
                  Sum 0 N (fun w => ind (cI A k =? w) *
                    Sum (rP A row) (rP A (row + 1)) (fun l => ind (cI A l =? w))))).
  { apply Sum_ext. intros k Hk. rewrite Sum_swap. apply Sum_ext. intros w Hw.
    apply Sum_scale. }
  rewrite Sum_swap. apply Sum_ext. intros w Hw.
  rewrite Sum_scale_r. lia.
Qed.

(** A strictly ascending row lists a column at most once. *)
Lemma mult_adj A r w : row_by Z.ltb A r = true -> mult A r w = ind (adj A r w).
Proof.
  intros H. unfold mult, adj, slice.
  assert (G : forall n lo, rP A r <= lo -> lo + Z.of_nat n = rP A (r + 1) ->
            Sum lo (rP A (r + 1)) (fun l => ind (cI A l =? w))
            = ind (existsb (Z.eqb w) (map (cI A) (zseq lo n)))).
  { induction n as [|n IH]; intros lo Hlo Hn.
    - rewrite Sum_nil by lia. reflexivity.
    - rewrite Sum_step by lia. cbn [zseq map existsb].
      rewrite (Z.eqb_sym w (cI A lo)).
      destruct (Z.eqb_spec (cI A lo) w) as [E|E]; cbn [orb].
      + rewrite Sum_zero; [reflexivity|]. intros i Hi.
        pose proof (row_strict_lt A r H lo i ltac:(lia) ltac:(lia) ltac:(lia)).
        destruct (Z.eqb_spec (cI A i) w); [lia|reflexivity].
      + rewrite IH by lia. change (ind false) with 0. lia. }
  destruct (Z.le_gt_cases (rP A r) (rP A (r + 1))).
  - unfold zrange. apply G; lia.
  - rewrite Sum_nil, zrange_nil by lia. reflexivity.
Qed.

Lemma naive_intersection_common A N row col :
  WF A N -> 0 <= row < N -> 0 <= col < N ->
  row_by Z.ltb A row = true -> row_by Z.ltb A col = true ->
  naive_intersection A row col = common_neighbours A N row col.
Proof.
  intros W Hrow Hcol Hr Hc.
  rewrite (naive_intersection_mult A N) by assumption.
  unfold common_neighbours. apply Sum_ext. intros w Hw.
  rewrite !mult_adj by assumption. symmetry. apply ind_and.
Qed.

(** Membership in a slice. *)
Lemma adj_iff A r w :
  adj A r w = true <-> exists l, rP A r <= l < rP A (r + 1) /\ cI A l = w.
Proof.
  unfold adj, slice. rewrite existsb_exists. split.
  - intros (x & Hin & E). apply in_map_iff in Hin. destruct Hin as (l & El & Hl).
    apply in_zrange in Hl. apply Z.eqb_eq in E. exists l. split; [assumption|congruence].
  - intros (l & Hl & E). exists w. split; [|apply Z.eqb_refl].
    apply in_map_iff. exists l. split; [assumption|]. apply in_zrange, Hl.
Qed.

Lemma symmetric_adj A N r c :
  WF A N -> symmetric A N = true -> 0 <= r < N -> 0 <= c < N -> adj A r c = adj A c r.
Proof.
  intros W S Hr Hc. unfold symmetric in S.
  assert (G : forall a b, 0 <= a < N -> adj A a b = true -> adj A b a = true).
  { intros a b Ha Hab. pose proof (forallb_zrange _ _ _ S a Ha) as Hrow.
    rewrite forallb_forall in Hrow. apply Hrow.
    unfold adj in Hab. apply existsb_exists in Hab. destruct Hab as (x & Hin & E).
    apply Z.eqb_eq in E. subst x. exact Hin. }
  destruct (adj A r c) eqn:E1; destruct (adj A c r) eqn:E2; try reflexivity.
  - apply G in E1; [congruence|assumption].
  - apply G in E2; [congruence|assumption].
Qed.

(** ** Triples of vertices *)

Lemma Sum3_ext N f g :
  (forall a b c, 0 <= a < N -> 0 <= b < N -> 0 <= c < N -> f a b c = g a b c) ->
  Sum3 N f = Sum3 N g.
Proof.
  intros H. unfold Sum3. apply Sum_ext. intros a Ha. apply Sum_ext. intros b Hb.
  apply Sum_ext. intros c Hc. apply H; assumption.
Qed.

Lemma Sum3_add N f g :
  Sum3 N (fun a b c => f a b c + g a b c) = Sum3 N f + Sum3 N g.
Proof.
  unfold Sum3. rewrite <- Sum_add. apply Sum_ext. intros a Ha.
  rewrite <- Sum_add. apply Sum_ext. intros b Hb. apply Sum_add.
Qed.

Lemma Sum3_swap23 N f : Sum3 N f = Sum3 N (fun a b c => f a c b).
Proof. unfold Sum3. apply Sum_ext. intros a Ha. apply Sum_swap. Qed.

Lemma Sum3_swap12 N f : Sum3 N f = Sum3 N (fun a b c => f b a c).
Proof. unfold Sum3. apply Sum_swap. Qed.

Lemma Sum_above N a f : 0 <= a < N ->
  Sum (a + 1) N f = Sum 0 N (fun b => if a <? b then f b else 0).
Proof.
  intros Ha. rewrite (Sum_split 0 (a + 1) N) by lia.
  rewrite (Sum_zero 0 (a + 1)).
  - rewrite Z.add_0_l. apply Sum_ext. intros b Hb.
    destruct (Z.ltb_spec a b); [reflexivity|lia].
  - intros b Hb. destruct (Z.ltb_spec a b); [lia|reflexivity].
Qed.

Section Triples.

Variables (N : Z) (e : Z -> Z -> Z).
Hypothesis e_sym : forall a b, 0 <= a < N -> 0 <= b < N -> e a b = e b a.
Hypothesis e_irr : forall a, 0 <= a < N -> e a a = 0.

Local Notation "'tri'" :=
  (fun a b c : Z => if (a <? b) && (b <? c) then e a b * e b c * e a c else 0).

(** Every triangle [a < b < c] is met on each of its three edges: from
    [(a, b)] with [c], from [(a, c)] with [b] and from [(b, c)] with [a]. *)
Lemma edges_meet_triangles :
  Sum3 N (fun r c w => if r <? c then e r c * e r w * e c w else 0)
  = 3 * Sum3 N tri.
Proof.
  transitivity (Sum3 N (fun r c w => tri w r c + tri r w c + tri r c w)).
  - apply Sum3_ext. intros r c w Hr Hc Hw. cbv beta.
    rewrite (e_sym w r), (e_sym w c) by assumption.
    destruct (Z.ltb_spec r c); destruct (Z.ltb_spec w r); destruct (Z.ltb_spec r w);
      destruct (Z.ltb_spec w c); destruct (Z.ltb_spec c w); cbn [andb]; try lia.
    + assert (w = c) by lia. subst w. rewrite (e_irr c) by assumption. lia.
    + assert (w = r) by lia. subst w. rewrite (e_irr r) by assumption. lia.
  - pose proof (Sum3_add N (fun r c w => tri w r c + tri r w c) (fun r c w => tri r c w)) as A1.
    pose proof (Sum3_add N (fun r c w => tri w r c) (fun r c w => tri r w c)) as A2.
    pose proof (Sum3_swap12 N tri) as E1.
    pose proof (Sum3_swap23 N (fun a b c => tri b a c)) as E1'.
    pose proof (Sum3_swap23 N tri) as E2.
    cbv beta in A1, A2, E1, E1', E2. rewrite A1, A2, <- E1', <- E1, <- E2. lia.
Qed.

Lemma triangles_cube :
  Sum 0 N (fun a => Sum (a + 1) N (fun b => Sum (b + 1) N (fun c =>
    e a b * e b c * e a c)))
  = Sum3 N tri.
Proof.
  unfold Sum3. apply Sum_ext. intros a Ha.
  rewrite Sum_above by assumption. apply Sum_ext. intros b Hb.
  destruct (Z.ltb_spec a b); cbn [andb].
  - apply Sum_above. assumption.
  - symmetry. apply Sum_zero. reflexivity.
Qed.

End Triples.

(** ** From the entries of the matrix to the triangles of the graph *)

(** A sum over the entries of a row is a sum over columns with multiplicity. *)
Lemma slice_sum A N r F : WF A N -> 0 <= r < N ->
  Sum (rP A r) (rP A (r + 1)) (fun j => F (cI A j))
  = Sum 0 N (fun c => mult A r c * F c).
Proof.
  intros W Hr. unfold mult.
  pose proof (rP_bounds _ _ W r ltac:(lia)).
  pose proof (rP_bounds _ _ W (r + 1) ltac:(lia)).
  transitivity (Sum (rP A r) (rP A (r + 1)) (fun j =>
                  Sum 0 N (fun c => ind (cI A j =? c) * F c))).
  - apply Sum_ext. intros j Hj.
    pose proof (wf_cols _ _ W j ltac:(lia)) as Hc.
    rewrite <- (Sum_single 0 N (cI A j) F Hc).
    apply Sum_ext. intros c _. rewrite (Z.eqb_sym (cI A j) c).
    destruct (c =? cI A j); unfold ind; lia.
  - rewrite Sum_swap. apply Sum_ext. intros c _. apply Sum_scale_r.
Qed.

Lemma total_calls_edges A N :
  WF A N -> rows_strict A N = true ->
  total_calls A N
  = Sum3 N (fun r c w =>
      if r <? c then ind (adj A r c) * ind (adj A r w) * ind (adj A c w) else 0).
Proof.
  intros W S. unfold total_calls, Sum3. apply Sum_ext. intros r Hr.
  pose proof (rP_bounds _ _ W r ltac:(lia)).
  pose proof (rP_bounds _ _ W (r + 1) ltac:(lia)).
  pose proof (rows_by_row _ _ _ _ S Hr) as Sr.
  unfold row_calls.
  transitivity (Sum (rP A r) (rP A (r + 1)) (fun j =>
     (fun c => if c >? r then Sum 0 N (fun w => ind (adj A r w) * ind (adj A c w)) else 0)
       (cI A j))).
  - apply Sum_ext. intros j Hj. unfold entry_calls. cbv beta.
    pose proof (wf_cols _ _ W j ltac:(lia)) as Hc.
    destruct (cI A j >? r); [|reflexivity].
    pose proof (rows_by_row _ _ _ _ S Hc) as Sc.
    rewrite (edge_calls_naive A N) by (try assumption; apply row_strict_sorted, Sr).
    rewrite (naive_intersection_mult A N) by assumption.
    apply Sum_ext. intros w _. rewrite !mult_adj by assumption. reflexivity.
  - etransitivity.
    { exact (slice_sum A N r
               (fun c => if c >? r
                         then Sum 0 N (fun w => ind (adj A r w) * ind (adj A c w))
                         else 0) W Hr). }
    apply Sum_ext. intros c Hc. rewrite mult_adj by assumption.
    rewrite Z.gtb_ltb. destruct (r <? c).
    + rewrite <- Sum_scale. apply Sum_ext. intros w _. lia.
    + rewrite Z.mul_0_r. symmetry. apply Sum_zero. reflexivity.
Qed.

(** On a symmetric matrix with strictly ascending rows and an empty
    diagonal the rows record three calls for every triangle. *)
Lemma total_calls_triangles A N :
  WF A N -> rows_strict A N = true -> symmetric A N = true ->
  no_self_loops A N = true ->
  total_calls A N = 3 * triangles A N.
Proof.
  intros W S Sy Irr.
  rewrite total_calls_edges by assumption.
  rewrite (edges_meet_triangles N (fun a b => ind (adj A a b))).
  - f_equal. unfold triangles.
    rewrite <- (triangles_cube N (fun a b => ind (adj A a b))).
    apply Sum_ext. intros a _. apply Sum_ext. intros b _. apply Sum_ext. intros c _.
    rewrite !ind_and. reflexivity.
  - intros a b Ha Hb. f_equal. apply (symmetric_adj A N); assumption.
  - intros a Ha. unfold no_self_loops in Irr.
    pose proof (forallb_zrange _ _ _ Irr a Ha) as H. cbv beta in H.
    destruct (adj A a a); [discriminate|reflexivity].
Qed.

(** The kernel on a graph: three times its triangles, up to wrap-around. *)
Lemma kernel_triangles A N G u nT :
  wf_csr A N = true -> rows_strict A N = true -> symmetric A N = true ->
  no_self_loops A N = true -> launch_ok A N G (numberOfWarps * warpSize) = true ->
  INT_MIN <= nT <= INT_MAX ->
  cuFindTriangles A N G (numberOfWarps * warpSize) u nT
  = Some (wrap32 (nT + 3 * triangles A N)).
Proof.
  intros W S Sy Irr L HnT. apply wf_csr_WF in W. apply launch_ok_Launch in L.
  rewrite kernel_total by assumption.
  rewrite total_calls_triangles by assumption. reflexivity.
Qed.

(** ** The intersection of two neighbour lists *)

Lemma edge_body_naive A N row j calls :
  WF A N -> 0 <= row < N -> rP A row <= j < rP A (row + 1) -> cI A j > row ->
  row_by Z.leb A row = true -> row_by Z.ltb A (cI A j) = true ->
  edge_body A row j calls = Some (calls + naive_intersection A row (cI A j)).
Proof.
  intros W Hrow Hj Hc Sr Sc.
  pose proof (rP_bounds _ _ W row ltac:(lia)).
  pose proof (rP_bounds _ _ W (row + 1) ltac:(lia)).
  pose proof (wf_cols _ _ W j ltac:(lia)) as Hcol.
  rewrite (edge_body_pure A N W) by lia.
  unfold entry_calls. destruct (Z.gtb_spec (cI A j) row); [|lia].
  rewrite (edge_calls_naive A N) by assumption. reflexivity.
Qed.

(** C7: on an input whose rows are strictly ascending, for every processed
    entry [j] of [row] with [col = colInd[j] > row], the memoized scan of
    the kernel records as many contributions as the naive intersection that
    rescans [row]'s slice for every entry of [col]'s list, and this number
    is the size of the intersection of the two neighbour sets. *)
Theorem memoized_scan_refines_naive A N row j calls :
  wf_csr A N = true -> rows_strict A N = true ->
  0 <= row < N -> rP A row <= j < rP A (row + 1) -> cI A j > row ->
  edge_body A row j calls = Some (calls + naive_intersection A row (cI A j))
  /\ naive_intersection A row (cI A j) = common_neighbours A N row (cI A j).
Proof.
  intros W S Hrow Hj Hc. apply wf_csr_WF in W.
  pose proof (rP_bounds _ _ W row ltac:(lia)).
  pose proof (rP_bounds _ _ W (row + 1) ltac:(lia)).
  pose proof (wf_cols _ _ W j ltac:(lia)) as Hcol.
  pose proof (rows_by_row _ _ _ _ S Hrow) as Sr.
  pose proof (rows_by_row _ _ _ _ S Hcol) as Sc.
  split.
  - apply (edge_body_naive A N); try assumption. apply row_strict_sorted, Sr.
  - apply naive_intersection_common; assumption.
Qed.

Lemma memoized_scan_refines_naive_witness :
  edge_body K3 0 0 0 = Some (0 + naive_intersection K3 0 (cI K3 0))
  /\ naive_intersection K3 0 (cI K3 0) = common_neighbours K3 3 0 (cI K3 0).
Proof.
  apply (memoized_scan_refines_naive K3 3 0 0 0);
    [reflexivity | reflexivity | lia | vm_compute; split; [discriminate | reflexivity]
    | reflexivity].
Defined.

(** C10, the claim as stated fails: in [D4] the rows are ascending and the
    processed edge [(0, 1)] has two pairs of equal entries (row 1 lists
    column 2 twice), but the memoized scan records one contribution. *)
Lemma pair_count_fails_on_repeated_col :
  wf_csr D4 4 = true /\ rows_sorted D4 4 = true
  /\ cI D4 0 = 1
  /\ naive_intersection D4 0 1 = 2
  /\ edge_body D4 0 0 0 = Some 1.
Proof. vm_compute. repeat split; reflexivity. Qed.

(** C10, amended: for a processed entry [j] of [row] with
    [col = colInd[j] > row], when [row]'s slice is ascending (repetitions
    allowed) and [col]'s slice is strictly ascending, the contributions
    recorded are the pairs of equal entries of the two slices, that is the
    sum over the columns of the product of the multiplicities: a common
    neighbour that [row] lists [m] times is counted [m] times. *)
Theorem memoized_scan_counts_pairs A N row j calls :
  wf_csr A N = true ->
  0 <= row < N -> rP A row <= j < rP A (row + 1) -> cI A j > row ->
  row_by Z.leb A row = true -> row_by Z.ltb A (cI A j) = true ->
  edge_body A row j calls = Some (calls + naive_intersection A row (cI A j))
  /\ naive_intersection A row (cI A j)
     = Sum 0 N (fun w => mult A row w * mult A (cI A j) w).
Proof.
  intros W Hrow Hj Hc Sr Sc. apply wf_csr_WF in W.
  pose proof (rP_bounds _ _ W row ltac:(lia)).
  pose proof (rP_bounds _ _ W (row + 1) ltac:(lia)).
  pose proof (wf_cols _ _ W j ltac:(lia)) as Hcol.
  split.
  - apply (edge_body_naive A N); assumption.
  - apply naive_intersection_mult; assumption.
Qed.

(** In [R3] row 0 lists its neighbour 2 twice and the edge [(0, 1)] records
    the common neighbour 2 twice. *)
Lemma memoized_scan_counts_pairs_witness :
  edge_body R3 0 0 0 = Some (0 + naive_intersection R3 0 (cI R3 0))
  /\ naive_intersection R3 0 (cI R3 0)
     = Sum 0 3 (fun w => mult R3 0 w * mult R3 (cI R3 0) w).
Proof.
  apply (memoized_scan_counts_pairs R3 3 0 0 0);
    [reflexivity | lia | vm_compute; split; [discriminate | reflexivity]
    | reflexivity | reflexivity | reflexivity].
Defined.

Example repeated_neighbour_counted_twice :
  edge_body R3 0 0 0 = Some 2 /\ common_neighbours R3 3 0 1 = 1.
Proof. vm_compute. split; reflexivity. Qed.

(** ** The value left in the accumulator *)

Lemma triangles_nonneg A N : 0 <= triangles A N.
Proof.
  unfold triangles. apply Sum_nonneg. intros a _. apply Sum_nonneg. intros b _.
  apply Sum_nonneg. intros c _. destruct (adj A a b && adj A b c && adj A a c); simpl; lia.
Qed.

(** C1, the claim as stated fails: [K4] is symmetric with ascending rows and
    in-range columns and has 4 triangles; launched with one block of 8 full
    warps, the two kernels leave 12 in the accumulator. *)
Lemma accumulator_is_not_triangle_number :
  wf_csr K4 4 = true /\ rows_sorted K4 4 = true /\ symmetric K4 4 = true
  /\ launch_ok K4 4 1 256 = true
  /\ triangles K4 4 = 4
  /\ cuFindTriangles K4 4 1 256 junk (cuZeroVariable 0) = Some 12.
Proof. vm_compute. repeat split; reflexivity. Qed.

(** C1, amended: for every input that is symmetric, has an empty diagonal
    and rows strictly ascending with columns in [[0, N)], launched with
    blocks of [numberOfWarps * warpSize] threads on a grid for which the
    index arithmetic fits [int], [cuZeroVariable] followed by
    [cuFindTriangles] leaves in [nT] three times the number of triangles of
    the graph, as an [int]: exactly [3 * triangles] when that fits. *)
Theorem accumulator_is_thrice_triangles A N G u nT :
  wf_csr A N = true -> rows_strict A N = true -> symmetric A N = true ->
  no_self_loops A N = true ->
  launch_ok A N G (numberOfWarps * warpSize) = true ->
  cuFindTriangles A N G (numberOfWarps * warpSize) u (cuZeroVariable nT)
  = Some (wrap32 (3 * triangles A N))
  /\ (3 * triangles A N <= INT_MAX ->
      cuFindTriangles A N G (numberOfWarps * warpSize) u (cuZeroVariable nT)
      = Some (3 * triangles A N)).
Proof.
  intros W S Sy Irr L. unfold cuZeroVariable.
  rewrite kernel_triangles by (try assumption; int_range).
  rewrite Z.add_0_l. split; [reflexivity|].
  intros Hfit. rewrite wrap32_id; [reflexivity|].
  pose proof (triangles_nonneg A N). int_range.
Qed.

Lemma accumulator_is_thrice_triangles_witness :
  cuFindTriangles K4 4 2 (numberOfWarps * warpSize) junk (cuZeroVariable 7)
  = Some (wrap32 (3 * triangles K4 4))
  /\ (3 * triangles K4 4 <= INT_MAX ->
      cuFindTriangles K4 4 2 (numberOfWarps * warpSize) junk (cuZeroVariable 7)
      = Some (3 * triangles K4 4)).
Proof.
  apply (accumulator_is_thrice_triangles K4 4 2 junk 7); reflexivity.
Defined.

(** The hypotheses of the amended statement are needed: a loop is recorded
    as a common neighbour, and a repeated entry is recorded once more. *)
Example loop_is_recorded :
  wf_csr L2 2 = true /\ rows_strict L2 2 = true /\ symmetric L2 2 = true
  /\ triangles L2 2 = 0
  /\ cuFindTriangles L2 2 1 256 junk (cuZeroVariable 0) = Some 1.
Proof. vm_compute. repeat split. Qed.

Example repeated_entry_is_recorded :
  wf_csr R3 3 = true /\ rows_sorted R3 3 = true /\ symmetric R3 3 = true
  /\ no_self_loops R3 3 = true /\ triangles R3 3 = 1
  /\ cuFindTriangles R3 3 1 256 junk (cuZeroVariable 0) = Some 5.
Proof. vm_compute. repeat split. Qed.

(** C2, the claim as stated fails: on the 3-node complete graph, launched
    with one block of 8 full warps, the accumulator ends at 3. *)
Lemma single_triangle_is_not_one :
  launch_ok K3 3 1 256 = true
  /\ cuFindTriangles K3 3 1 256 junk (cuZeroVariable 0) = Some 3
  /\ cuFindTriangles K3 3 1 256 junk (cuZeroVariable 0) <> Some 1.
Proof. vm_compute. repeat split. discriminate. Qed.

Lemma grid_fails_with_its_first_block A N G B u nT :
  0 < G ->
  cuFindTriangles_block A N G B 0 (mkShmem (u 0) []) nT = None ->
  cuFindTriangles A N G B u nT = None.
Proof.
  intros HG E. unfold cuFindTriangles. rewrite (zrange_cons 0 G) by lia.
  cbn [grid_from]. rewrite E. reflexivity.
Qed.

(** The bound on the grid is needed: with [2^28] blocks the unsigned
    product [numberOfWarps * gridDim.x] is [2^31], [stride] becomes
    [INT_MIN], and after row 0 the first thread reads [csrRowPtr] at a
    negative index. *)
Example huge_grid_wraps_the_stride :
  cuFindTriangles K3 3 268435456 256 junk (cuZeroVariable 0) = None.
Proof.
  apply grid_fails_with_its_first_block; [reflexivity|].
  vm_compute. reflexivity.
Qed.

(** C2, amended: on the 3-node complete graph stored symmetrically with
    [nnz = 6], launched with blocks of [numberOfWarps * warpSize] threads
    on a grid of 1 to 268435451 blocks (the grids for which
    [N + numberOfWarps * gridDim.x + warpSize] fits [int]),
    [cuZeroVariable] followed by [cuFindTriangles] leaves exactly 3 in the
    accumulator: the triangle once for each of its edges. *)
Theorem single_triangle_yields_three G u nT :
  1 <= G <= 268435451 ->
  cuFindTriangles K3 3 G (numberOfWarps * warpSize) u (cuZeroVariable nT) = Some 3.
Proof.
  intros HG. unfold cuZeroVariable.
  assert (L : launch_ok K3 3 G (numberOfWarps * warpSize) = true).
  { unfold launch_ok, numberOfWarps, warpSize, INT_MAX.
    repeat (apply andb_true_intro; split); apply Z.leb_le;
      first [lia | vm_compute; discriminate]. }
  rewrite kernel_triangles; try assumption; try reflexivity.
  int_range.
Qed.

Lemma single_triangle_yields_three_witness :
  cuFindTriangles K3 3 5 (numberOfWarps * warpSize) junk (cuZeroVariable 9) = Some 3.
Proof. apply (single_triangle_yields_three 5 junk 9). lia. Defined.

(** The blocks of a grid share out the rows of a warp index [w]: whatever
    the number of blocks, exactly one of the threads of warp index [w]
    visits a row [i] with [w <= i] and [i - w] a multiple of
    [numberOfWarps], and none visits another row. *)
Lemma blocks_cover w G f i : 1 <= G -> 0 <= w -> 0 <= i ->
  Sum 0 G (fun b => strided (w + b * numberOfWarps) (numberOfWarps * G) f i)
  = strided w numberOfWarps f i.
Proof.
  intros HG Hw Hi. unfold numberOfWarps.
  destruct (Z.leb_spec w i) as [Hle|Hgt];
    [destruct (Z.eqb_spec ((i - w) mod 8) 0) as [Hm|Hm]|].
  - apply Z.mod_divide in Hm; [|lia]. destruct Hm as [e He].
    assert (0 <= e) by lia.
    transitivity (f i).
    + rewrite <- (strided_cover 0 G (fun _ => f i) e) by lia.
      apply Sum_ext. intros b Hb. unfold strided.
      replace (i - (w + b * 8)) with (8 * (e - (0 + b))) by lia.
      rewrite Z.mul_mod_distr_l by lia.
      destruct (Z.leb_spec (w + b * 8) i); destruct (Z.leb_spec (0 + b) e);
        cbn [andb]; try reflexivity; try lia.
      destruct (Z.eqb_spec ((e - (0 + b)) mod G) 0) as [->|Hne]; [reflexivity|].
      destruct (Z.eqb_spec (8 * ((e - (0 + b)) mod G)) 0); [lia|reflexivity].
    + unfold strided. destruct (Z.leb_spec w i); [|lia].
      replace (i - w) with (e * 8) by lia. rewrite Z.mod_mul by lia. reflexivity.
  - transitivity 0.
    + apply Sum_zero. intros b Hb. unfold strided.
      destruct (Z.leb_spec (w + b * 8) i); cbn [andb]; [|reflexivity].
      destruct (Z.eqb_spec ((i - (w + b * 8)) mod (8 * G)) 0) as [E|E]; [|reflexivity].
      exfalso. apply Hm. apply Z.mod_divide in E; [|lia]. destruct E as [q E].
      replace (i - w) with ((b + q * G) * 8) by lia. apply Z.mod_mul. lia.
    + unfold strided. destruct (Z.leb_spec w i); [|lia].
      destruct (Z.eqb_spec ((i - w) mod 8) 0); [contradiction|reflexivity].
  - transitivity 0.
    + apply Sum_zero. intros b Hb. unfold strided.
      destruct (Z.leb_spec (w + b * 8) i); [lia|reflexivity].
    + unfold strided. destruct (Z.leb_spec w i); [lia|reflexivity].
Qed.

(** What the threads of all the blocks record, for any block size: it does
    not depend on the number of blocks. *)
Lemma grid_calls_any_grid A N G B : 0 <= N -> 1 <= G ->
  Sum 0 G (fun b => Sum 0 B (thread_sum A N G b))
  = Sum 0 B (fun t =>
      Sum 0 N (strided (t / warpSize) numberOfWarps
                 (fun row => lane_calls A row (t mod warpSize)))).
Proof.
  intros HN HG. rewrite Sum_swap. apply Sum_ext. intros t Ht.
  unfold thread_sum. cbv zeta. rewrite Sum_swap. apply Sum_ext. intros row Hrow.
  apply (blocks_cover (t / warpSize) G
           (fun row => lane_calls A row (t mod warpSize)) row); try lia.
  apply Z.div_pos; unfold warpSize; lia.
Qed.

(** C5, the claim as stated fails: on the 3-node complete graph a block of
    8 warps and a block of 1 warp leave different values. *)
Lemma block_size_changes_the_count :
  launch_ok K3 3 1 256 = true /\ launch_ok K3 3 1 32 = true
  /\ cuFindTriangles K3 3 1 256 junk (cuZeroVariable 0) = Some 3
  /\ cuFindTriangles K3 3 1 32 junk (cuZeroVariable 0) = Some 2.
Proof. vm_compute. repeat split; reflexivity. Qed.

(** C5, amended: for every well-formed input and any two accepted launches
    with the same block size (any size from 1 to 1024 threads) and any
    two grid sizes, [cuZeroVariable] followed by [cuFindTriangles] returns
    and leaves the same value in the accumulator under both, whatever the
    shared memory held; with blocks of [numberOfWarps * warpSize] threads
    the value is what is recorded for all the rows.  Launches whose block
    sizes differ may leave different values. *)
Theorem grid_size_does_not_change_the_count A N G1 G2 B u1 u2 nT1 nT2 :
  wf_csr A N = true ->
  launch_ok A N G1 B = true ->
  launch_ok A N G2 B = true ->
  cuFindTriangles A N G1 B u1 (cuZeroVariable nT1)
  = cuFindTriangles A N G2 B u2 (cuZeroVariable nT2)
  /\ (exists v, cuFindTriangles A N G1 B u1 (cuZeroVariable nT1) = Some v)
  /\ (B = numberOfWarps * warpSize ->
      cuFindTriangles A N G1 B u1 (cuZeroVariable nT1)
      = Some (wrap32 (total_calls A N))).
Proof.
  intros W L1 L2. apply wf_csr_WF in W.
  apply launch_ok_Launch in L1. apply launch_ok_Launch in L2.
  pose proof (wf_N _ _ W) as HN.
  unfold cuZeroVariable.
  rewrite !cuFindTriangles_result
    by (try apply (la_block _ _ _ _ L1); int_range).
  rewrite !grid_calls_pure by assumption. cbn [option_map].
  rewrite !grid_calls_any_grid
    by (try apply (la_grid _ _ _ _ L1); try apply (la_grid _ _ _ _ L2); lia).
  split; [reflexivity|]. split; [eexists; reflexivity|].
  intros ->.
  rewrite <- (grid_calls_any_grid A N G1) by (try apply (la_grid _ _ _ _ L1); lia).
  rewrite grid_cover by (try apply (la_grid _ _ _ _ L1); lia).
  reflexivity.
Qed.

Lemma grid_size_does_not_change_the_count_witness :
  cuFindTriangles K4 4 1 100 junk (cuZeroVariable 1)
  = cuFindTriangles K4 4 3 100 (fun _ _ => 0) (cuZeroVariable 2)
  /\ (exists v, cuFindTriangles K4 4 1 100 junk (cuZeroVariable 1) = Some v)
  /\ (100 = numberOfWarps * warpSize ->
      cuFindTriangles K4 4 1 100 junk (cuZeroVariable 1)
      = Some (wrap32 (total_calls K4 4))).
Proof.
  apply (grid_size_does_not_change_the_count K4 4 1 3 100 junk (fun _ _ => 0) 1 2);
    reflexivity.
Defined.

(** C8: on a well-formed input under an accepted launch, the sequence
    [cuZeroVariable; cuFindTriangles] returns a value [v]; running the
    sequence again returns [v] again, whatever the shared memory holds at
    either run; running [cuFindTriangles] again without zeroing returns
    the sum [v + v] of both counts, in the [int] arithmetic of the
    accumulator: exactly [v + v] when that fits. *)
Theorem rezeroed_runs_agree_unzeroed_runs_add A N G B u1 u2 u3 nT :
  wf_csr A N = true -> launch_ok A N G B = true ->
  exists v,
    cuFindTriangles A N G B u1 (cuZeroVariable nT) = Some v
    /\ cuFindTriangles A N G B u2 (cuZeroVariable v) = Some v
    /\ cuFindTriangles A N G B u3 v = Some (wrap32 (v + v))
    /\ (INT_MIN <= v + v <= INT_MAX -> cuFindTriangles A N G B u3 v = Some (v + v)).
Proof.
  intros W L. apply wf_csr_WF in W. apply launch_ok_Launch in L.
  pose proof (la_block _ _ _ _ L) as HB.
  pose proof (grid_calls_pure A N G B W L) as E.
  set (d := Sum 0 G (fun b => Sum 0 B (thread_sum A N G b))) in E.
  exists (wrap32 d). unfold cuZeroVariable.
  assert (H0 : forall u, cuFindTriangles A N G B u 0 = Some (wrap32 d)).
  { intros u. rewrite cuFindTriangles_result by (try assumption; int_range).
    rewrite E. cbn [option_map]. rewrite Z.add_0_l. reflexivity. }
  assert (H : cuFindTriangles A N G B u3 (wrap32 d)
              = Some (wrap32 (wrap32 d + wrap32 d))).
  { rewrite cuFindTriangles_result by (try assumption; apply wrap32_range).
    rewrite E. cbn [option_map]. f_equal.
    rewrite wrap32_add_r. reflexivity. }
  split; [apply H0|]. split; [apply H0|]. split; [exact H|].
  intros Hfit. rewrite H, wrap32_id by assumption. reflexivity.
Qed.

Lemma rezeroed_runs_agree_unzeroed_runs_add_witness :
  exists v,
    cuFindTriangles K3 3 1 256 junk (cuZeroVariable 4) = Some v
    /\ cuFindTriangles K3 3 1 256 (fun _ _ => 5) (cuZeroVariable v) = Some v
    /\ cuFindTriangles K3 3 1 256 (fun _ _ => 9) v = Some (wrap32 (v + v))
    /\ (INT_MIN <= v + v <= INT_MAX ->
        cuFindTriangles K3 3 1 256 (fun _ _ => 9) v = Some (v + v)).
Proof.
  apply (rezeroed_runs_agree_unzeroed_runs_add K3 3 1 256 junk (fun _ _ => 5)
           (fun _ _ => 9) 4); reflexivity.
Defined.

Example two_unzeroed_runs_on_K3 :
  cuFindTriangles K3 3 1 256 junk (cuZeroVariable 4) = Some 3
  /\ cuFindTriangles K3 3 1 256 junk 3 = Some 6.
Proof. vm_compute. split; reflexivity. Qed.

(** ** A graph without edges *)

Lemma rP_empty N r : rP (empty_csr N) r = 0.
Proof. unfold rP, empty_csr. cbn [csrRowPtr]. apply nth_repeat. Qed.

Lemma WF_empty N : 0 <= N < INT_MAX -> WF (empty_csr N) N.
Proof.
  intros HN. constructor; try assumption.
  - cbn [empty_csr csrRowPtr]. rewrite repeat_length. lia.
  - apply rP_empty.
  - rewrite rP_empty. reflexivity.
  - cbn [empty_csr csrColInd length]. int_range.
  - intros r _. rewrite !rP_empty. lia.
  - cbn [empty_csr csrColInd length]. intros l Hl. lia.
Qed.

Lemma thread_sum_empty N G b t : thread_sum (empty_csr N) N G b t = 0.
Proof.
  unfold thread_sum. apply Sum_zero. intros row _. unfold strided.
  destruct (_ && _); [|reflexivity].
  unfold lane_calls. rewrite !rP_empty. apply Sum_nil. lia.
Qed.

(** C9: for every [N >= 0], the [N]-row input with [nnz = 0] (every
    [rowPtr] entry 0, [colInd] empty) leaves 0 in the accumulator after
    [cuZeroVariable] and [cuFindTriangles], under every accepted launch. *)
Theorem no_edges_yield_zero N G B u nT :
  0 <= N -> launch_ok (empty_csr N) N G B = true ->
  cuFindTriangles (empty_csr N) N G B u (cuZeroVariable nT) = Some 0.
Proof.
  intros HN L. apply launch_ok_Launch in L.
  pose proof (la_rows _ _ _ _ L) as Hr. pose proof (la_grid _ _ _ _ L) as Hg.
  assert (W : WF (empty_csr N) N) by (apply WF_empty; int_range).
  unfold cuZeroVariable.
  rewrite cuFindTriangles_result by (try apply (la_block _ _ _ _ L); int_range).
  rewrite grid_calls_pure by assumption. cbn [option_map].
  rewrite Sum_zero; [reflexivity|].
  intros b _. apply Sum_zero. intros t _. apply thread_sum_empty.
Qed.

Lemma no_edges_yield_zero_witness :
  cuFindTriangles (empty_csr 5) 5 2 64 junk (cuZeroVariable 11) = Some 0.
Proof. apply (no_edges_yield_zero 5 2 64 junk 11); [lia | reflexivity]. Defined.

(** ** The reduction of a block *)

Lemma block_rows_slots A N G B b s s1 :
  warpSize <= B <= numberOfWarps * warpSize ->
  block_rows A N G B b (block_init B s) = Some s1 ->
  forall i, numberOfWarps <= i < warpSize -> cells s1 i = 0.
Proof.
  intros HB E i Hi. unfold block_rows in E.
  pose proof (block_rows_from_spec A N G b (zrange 0 B) (block_init B s)) as H.
  destruct (block_calls_from A N G b (zrange 0 B)) as [d|]; [|congruence].
  destruct H as (s' & E' & Hother & _).
  assert (s' = s1) by congruence. subst s'.
  rewrite Hother.
  - rewrite block_init_cells by (unfold warpSize in *; lia).
    unfold warpSize, numberOfWarps in *.
    destruct (Z.leb_spec 0 i); destruct (Z.ltb_spec i (Z.min B 32));
      cbn [andb]; try reflexivity; lia.
  - intros t Ht. apply in_zrange in Ht. unfold warpSize, numberOfWarps in *.
    assert (t / 32 < 8) by (apply Z.div_lt_upper_bound; lia). lia.
Qed.

Lemma block_reduce_slots A N G B b s s1 :
  warpSize <= B <= numberOfWarps * warpSize ->
  block_rows A N G B b (block_init B s) = Some s1 ->
  cells (block_reduce B s1) 0 = wrap32 (Sum 0 numberOfWarps (cells s1)).
Proof.
  intros HB E. unfold block_reduce. rewrite Z.min_r by lia.
  rewrite blockReduceSum_warp. f_equal.
  rewrite (Sum_split 0 numberOfWarps warpSize) by (unfold numberOfWarps, warpSize; lia).
  rewrite (Sum_zero numberOfWarps warpSize); [lia|].
  apply (block_rows_slots A N G B b s s1); assumption.
Qed.

Lemma block_rows_returns A N G B b s :
  WF A N -> Launch A N G B -> 0 <= b < G ->
  exists s1, block_rows A N G B b s = Some s1.
Proof.
  intros W L Hb. unfold block_rows.
  pose proof (block_rows_from_spec A N G b (zrange 0 B) s) as H.
  pose proof (block_calls_pure A N G B b W L Hb) as E. unfold block_calls in E.
  rewrite E in H. destruct H as (s1 & H & _). exists s1. exact H.
Qed.

Lemma block_rows_from_int A N G b j ts : forall s s1,
  block_rows_from A N G b ts s = Some s1 ->
  INT_MIN <= cells s j <= INT_MAX -> INT_MIN <= cells s1 j <= INT_MAX.
Proof.
  induction ts as [|t ts IH]; intros s s1 E H; cbn [block_rows_from] in E.
  - injection E as <-. exact H.
  - unfold rows_thread in E.
    destruct (thread_calls A N G b t) as [c|]; cbn [obind] in E; [|discriminate].
    apply (IH _ _ E).
    destruct (Z.eq_dec j (t / warpSize)) as [->|Hne].
    + apply warp_groups_int, H.
    + rewrite warp_groups_other by assumption. exact H.
Qed.

Lemma reduce_rounds_int g : 0 <= g -> forall fuel i s,
  INT_MIN <= cells s 0 <= INT_MAX ->
  INT_MIN <= cells (reduce_rounds fuel g i s) 0 <= INT_MAX.
Proof.
  intros Hg. induction fuel as [|fuel IH]; intros i s H; cbn [reduce_rounds]; [exact H|].
  destruct (Z.ltb_spec 0 i); [|exact H].
  apply IH. rewrite reduce_round_cells by lia.
  destruct ((0 <=? 0) && (0 <? Z.min g i)); [apply wrap32_range|exact H].
Qed.

Lemma warps_in_block_bound B t : 0 <= t < B -> 0 <= t / warpSize < warps_in_block B.
Proof.
  intros Ht. unfold warps_in_block, warpSize.
  replace (B + 32 - 1) with (B - 1 + 1 * 32) by lia.
  rewrite Z.div_add by lia.
  pose proof (Z.div_le_mono t (B - 1) 32 ltac:(lia) ltac:(lia)).
  pose proof (Z.div_pos t 32 ltac:(lia) ltac:(lia)). lia.
Qed.

(** After the row phase the tree leaves in slot 0 the total of the slots of
    the warps of the block. *)
Lemma block_reduce_exact A N G B b s s1 :
  1 <= B <= 1024 ->
  block_rows A N G B b (block_init B s) = Some s1 ->
  cells (block_reduce B s1) 0 = wrap32 (Sum 0 (warps_in_block B) (cells s1)).
Proof.
  intros HB E. unfold block_rows in E.
  pose proof (block_rows_from_spec A N G b (zrange 0 B) (block_init B s)) as H.
  destruct (block_calls_from A N G b (zrange 0 B)) as [d|]; [|congruence].
  destruct H as (s' & E' & Hother & _).
  assert (s' = s1) by congruence. subst s'.
  assert (Hzero : forall i, warps_in_block B <= i < Z.min B warpSize -> cells s1 i = 0).
  { intros i Hi. rewrite Hother.
    - rewrite block_init_cells by lia.
      pose proof (warps_in_block_bound B 0 ltac:(lia)).
      destruct (Z.leb_spec 0 i); destruct (Z.ltb_spec i (Z.min B warpSize));
        cbn [andb]; try reflexivity; lia.
    - intros t Ht. apply in_zrange in Ht.
      pose proof (warps_in_block_bound B t Ht). lia. }
  unfold block_reduce.
  destruct (Z.le_gt_cases warpSize B) as [Hge|Hlt].
  - rewrite Z.min_r in * by lia. rewrite blockReduceSum_warp. f_equal.
    assert (warps_in_block B <= warpSize).
    { unfold warps_in_block, warpSize. apply Z.lt_succ_r.
      apply Z.div_lt_upper_bound; lia. }
    pose proof (warps_in_block_bound B 0 ltac:(lia)).
    rewrite (Sum_split 0 (warps_in_block B) warpSize) by lia.
    rewrite (Sum_zero (warps_in_block B) warpSize) by exact Hzero. lia.
  - rewrite Z.min_l in * by lia.
    assert (HW : warps_in_block B = 1).
    { unfold warps_in_block, warpSize in *. symmetry.
      apply (Z.div_unique (B + 32 - 1) 32 1 (B - 1)); lia. }
    rewrite HW in *.
    assert (Hint : INT_MIN <= cells s1 0 <= INT_MAX).
    { apply (block_rows_from_int A N G b 0 _ _ _ E').
      rewrite block_init_cells by lia.
      destruct ((0 <=? 0) && (0 <? Z.min B warpSize)) eqn:E0; [int_range|].
      apply andb_false_iff in E0. destruct E0 as [E0|E0];
        [apply Z.leb_gt in E0 | apply Z.ltb_ge in E0]; unfold warpSize in *; lia. }
    rewrite <- (wrap32_id (cells (blockReduceSum B s1) 0))
      by (apply reduce_rounds_int; [lia | exact Hint]).
    eapply eqm_trans.
    + apply blockReduceSum_total; [lia|]. right. intros j Hj. apply Hzero. lia.
    + apply eqm_of_eq. rewrite (Sum_split 0 1 B) by lia.
      rewrite (Sum_zero 1 B) by (intros j Hj; apply Hzero; lia). lia.
Qed.

(** C3: in every block of an accepted launch on a well-formed input, the
    row phase returns a state [s1] of the shared slots; after the barrier
    the halving reduction leaves in [sum[0]] the total (as an [int]) of the
    per-warp slots of the warps of the block, that is of the
    [numberOfWarps] slots of [sum] when the first warp is full and the
    block holds at most [numberOfWarps] warps, and the block adds exactly
    that value to the global accumulator. *)
Theorem block_reduction_totals_the_warp_slots A N G B b sum nT :
  wf_csr A N = true -> launch_ok A N G B = true -> 0 <= b < G ->
  exists s1,
    block_rows A N G B b (block_init B sum) = Some s1
    /\ cells (block_reduce B s1) 0 = wrap32 (Sum 0 (warps_in_block B) (cells s1))
    /\ (warpSize <= B <= numberOfWarps * warpSize ->
        cells (block_reduce B s1) 0 = wrap32 (Sum 0 numberOfWarps (cells s1)))
    /\ option_map snd (cuFindTriangles_block A N G B b sum nT)
       = Some (wrap32 (nT + cells (block_reduce B s1) 0)).
Proof.
  intros W L Hb. apply wf_csr_WF in W. apply launch_ok_Launch in L.
  destruct (block_rows_returns A N G B b (block_init B sum) W L Hb) as [s1 E].
  exists s1. split; [exact E|]. split; [|split].
  - apply (block_reduce_exact A N G B b sum); [apply (la_block _ _ _ _ L) | exact E].
  - intros HB. apply (block_reduce_slots A N G B b sum); assumption.
  - unfold cuFindTriangles_block. rewrite E. reflexivity.
Qed.

Lemma block_reduction_totals_the_warp_slots_witness :
  exists s1,
    block_rows K4 4 1 256 0 (block_init 256 (mkShmem (junk 0) [])) = Some s1
    /\ cells (block_reduce 256 s1) 0 = wrap32 (Sum 0 (warps_in_block 256) (cells s1))
    /\ (warpSize <= 256 <= numberOfWarps * warpSize ->
        cells (block_reduce 256 s1) 0 = wrap32 (Sum 0 numberOfWarps (cells s1)))
    /\ option_map snd (cuFindTriangles_block K4 4 1 256 0 (mkShmem (junk 0) []) 5)
       = Some (wrap32 (5 + cells (block_reduce 256 s1) 0)).
Proof.
  apply (block_reduction_totals_the_warp_slots K4 4 1 256 0 (mkShmem (junk 0) []) 5);
    [reflexivity | reflexivity | lia].
Defined.

Example K4_warp_slots :
  option_map (fun s => map (cells s) (zrange 0 9))
    (block_rows K4 4 1 256 0 (block_init 256 (mkShmem (junk 0) [])))
  = Some [6; 4; 2; 0; 0; 0; 0; 0; 0].
Proof. vm_compute. reflexivity. Qed.

(** ** The bounds of the shared array *)

(** C4 fails on the code: in the launch of one block of 256 threads on the
    3-node complete graph, the indices used on [sum] are not all inside
    [[0, numberOfWarps)]; slot 31 is among them (line 124, lane 31). *)
Theorem sum_is_indexed_out_of_bounds :
  option_map (fun r => forallb in_sum_bounds (trace (fst r)))
    (cuFindTriangles_block K3 3 1 256 0 (mkShmem (junk 0) []) 0) = Some false
  /\ existsb (Z.eqb 31) (trace (block_init 256 (mkShmem (junk 0) []))) = true.
Proof. vm_compute. split; reflexivity. Qed.

(** Line 124 alone leaves the declared bounds in every block of more than
    [numberOfWarps] threads: thread [numberOfWarps] stores to its own lane. *)
Lemma init_thread_trace_mono t s i : In i (trace s) -> In i (trace (init_thread t s)).
Proof.
  intros H. unfold init_thread. destruct (t / warpSize =? 0); [right|]; exact H.
Qed.

Lemma block_init_from_trace_mono ts : forall s i,
  In i (trace s) -> In i (trace (fold_left (fun s t => init_thread t s) ts s)).
Proof.
  induction ts as [|t ts IH]; intros s i H; cbn [fold_left]; [exact H|].
  apply IH, init_thread_trace_mono, H.
Qed.

Lemma block_init_out_of_bounds B s :
  numberOfWarps < B -> In numberOfWarps (trace (block_init B s)).
Proof.
  intros HB. unfold block_init.
  rewrite (zrange_split 0 numberOfWarps B) by (unfold numberOfWarps in *; lia).
  rewrite (zrange_cons numberOfWarps B) by lia.
  rewrite fold_left_app. cbn [fold_left].
  apply block_init_from_trace_mono. left. reflexivity.
Qed.

(** ** Coalesced groups *)

Lemma group_size lanes g :
  nodupb g = true -> forallb (fun lane => (0 <=? lane) && (lane <? lanes)) g = true ->
  Z.of_nat (length g) = Sum 0 lanes (fun lane => ind (existsb (Z.eqb lane) g)).
Proof.
  induction g as [|x g IH]; cbn [nodupb forallb length existsb]; intros Hn Hr.
  - rewrite Sum_zero; reflexivity.
  - apply andb_true_iff in Hn. destruct Hn as [Hx Hn].
    apply andb_true_iff in Hr. destruct Hr as [Hxr Hr].
    apply andb_true_iff in Hxr. destruct Hxr as [H0 H1].
    apply Z.leb_le in H0. apply Z.ltb_lt in H1.
    rewrite Nat2Z.inj_succ, IH by assumption.
    transitivity (Sum 0 lanes (fun lane =>
                    (if lane =? x then 1 else 0) + ind (existsb (Z.eqb lane) g))).
    + rewrite Sum_add, (Sum_single 0 lanes x (fun _ => 1)) by lia. lia.
    + apply Sum_ext. intros lane _.
      destruct (Z.eqb_spec lane x) as [->|Hne]; cbn [orb].
      * apply negb_true_iff in Hx. rewrite Hx. reflexivity.
      * reflexivity.
Qed.

Lemma group_ok_inv lanes g : group_ok lanes g = true ->
  g <> [] /\ nodupb g = true
  /\ forallb (fun lane => (0 <=? lane) && (lane <? lanes)) g = true.
Proof.
  destruct g as [|x g]; [discriminate|]. unfold group_ok.
  intros H. apply andb_true_iff in H. destruct H as [H1 H2].
  split; [discriminate|]. split; assumption.
Qed.

(** The sizes of the groups of a schedule add up to the calls of the lanes. *)
Lemma schedule_size lanes gs :
  forallb (group_ok lanes) gs = true ->
  Z.of_nat (length (concat gs)) = Sum 0 lanes (fun lane => count_lane lane gs).
Proof.
  induction gs as [|g gs IH]; cbn [forallb concat count_lane fold_right]; intros H.
  - rewrite Sum_zero; reflexivity.
  - apply andb_true_iff in H. destruct H as [Hg Hgs].
    destruct (group_ok_inv _ _ Hg) as (_ & Hn & Hr).
    rewrite length_app, Nat2Z.inj_add, IH, (group_size lanes g) by assumption.
    rewrite <- Sum_add. reflexivity.
Qed.

(** One atomic add on [sum[wid]] for every group. *)
Lemma warp_groups_trace lanes gs wid : forall s,
  forallb (group_ok lanes) gs = true ->
  trace (warp_groups gs wid s) = repeat wid (length gs) ++ trace s.
Proof.
  induction gs as [|g gs IH]; intros s H; [reflexivity|].
  cbn [forallb] in H. apply andb_true_iff in H. destruct H as [Hg Hgs].
  destruct (group_ok_inv _ _ Hg) as (Hne & _ & _).
  unfold warp_groups in *. cbn [fold_left]. rewrite IH by assumption.
  rewrite warpReduceSum_group by assumption. cbn [sh_atomicAdd trace length repeat].
  rewrite (repeat_cons (length gs) wid), <- app_assoc. reflexivity.
Qed.

(** C6: whatever coalesced groups the hardware forms for the calls of the
    threads of a warp (every lane in as many groups as it finds matches,
    no group empty), the row phase raises [sum[wid]] by the number of match
    events of the warp, one unit per event in aggregate (as an [int]); it
    issues one atomic add per group, each of the size of its group, and
    touches no other slot. *)
Theorem warp_slot_counts_match_events A N G b wid lanes gs sum :
  schedule_ok A N G b wid lanes gs = true ->
  INT_MIN <= cells sum wid <= INT_MAX ->
  cells (warp_groups gs wid sum) wid
  = wrap32 (cells sum wid + warp_matches A N G b wid lanes)
  /\ Z.of_nat (length (concat gs)) = warp_matches A N G b wid lanes
  /\ trace (warp_groups gs wid sum) = repeat wid (length gs) ++ trace sum
  /\ (forall j, j <> wid -> cells (warp_groups gs wid sum) j = cells sum j).
Proof.
  unfold schedule_ok. intros H Hint.
  apply andb_true_iff in H. destruct H as [Hg Hc].
  assert (Hsize : Z.of_nat (length (concat gs)) = warp_matches A N G b wid lanes).
  { rewrite (schedule_size lanes) by assumption. unfold warp_matches.
    apply Sum_ext. intros lane Hl.
    pose proof (forallb_zrange _ _ _ Hc lane Hl) as E. cbv beta in E.
    destruct (thread_calls A N G b (wid * warpSize + lane)); [|discriminate].
    apply Z.eqb_eq in E. congruence. }
  split; [|split; [exact Hsize|split]].
  - rewrite <- Hsize.
    rewrite <- (wrap32_id (cells (warp_groups gs wid sum) wid))
      by (apply warp_groups_int, Hint).
    apply warp_groups_same.
  - apply (warp_groups_trace lanes). assumption.
  - intros j Hj. apply warp_groups_other, Hj.
Qed.

(** On the 3-node complete graph lanes 0 and 1 of warp 0 each find one
    match for row 0; coalesced in one group they issue one atomic add of 2. *)
Lemma warp_slot_counts_match_events_witness :
  cells (warp_groups [[0; 1]] 0 (mkShmem (fun _ => 0) [])) 0
  = wrap32 (cells (mkShmem (fun _ => 0) []) 0 + warp_matches K3 3 1 0 0 32)
  /\ Z.of_nat (length (concat [[0; 1]])) = warp_matches K3 3 1 0 0 32
  /\ trace (warp_groups [[0; 1]] 0 (mkShmem (fun _ => 0) []))
     = repeat 0 (length [[0; 1]]) ++ trace (mkShmem (fun _ => 0) [])
  /\ (forall j, j <> 0 ->
        cells (warp_groups [[0; 1]] 0 (mkShmem (fun _ => 0) [])) j
        = cells (mkShmem (fun _ => 0) []) j).
Proof.
  apply (warp_slot_counts_match_events K3 3 1 0 0 32 [[0; 1]] (mkShmem (fun _ => 0) []));
    [reflexivity | simpl; unfold INT_MIN, INT_MAX; lia].
Defined.

Example coalesced_or_alone_same_slot :
  cells (warp_groups [[0; 1]] 0 (mkShmem (fun _ => 0) [])) 0 = 2
  /\ cells (warp_groups [[0]; [1]] 0 (mkShmem (fun _ => 0) [])) 0 = 2
  /\ trace (warp_groups [[0; 1]] 0 (mkShmem (fun _ => 0) [])) = [0]
  /\ trace (warp_groups [[0]; [1]] 0 (mkShmem (fun _ => 0) [])) = [0; 0].
Proof. vm_compute. repeat split. Qed.

(** ** The order of threads and blocks *)

Lemma warpReduceSum_cells g wid s j :
  cells (warpReduceSum g wid s) j
  = match g with
    | [] => cells s j
    | _ => if j =? wid then wrap32 (cells s wid + Z.of_nat (length g)) else cells s j
    end.
Proof.
  destruct g as [|x g]; [reflexivity|].
  rewrite warpReduceSum_group by discriminate. reflexivity.
Qed.

Lemma warp_groups_singles lane wid j : forall n s,
  cells (warp_groups (repeat [lane] n) wid s) j
  = if j =? wid then Nat.iter n (fun x => wrap32 (x + 1)) (cells s wid) else cells s j.
Proof.
  induction n as [|n IH]; intros s.
  - cbn [repeat Nat.iter]. unfold warp_groups. cbn [fold_left].
    destruct (Z.eqb_spec j wid) as [->|]; reflexivity.
  - cbn [repeat]. unfold warp_groups in *. cbn [fold_left]. rewrite IH.
    rewrite !warpReduceSum_cells. cbn [length]. rewrite Z.eqb_refl.
    destruct (Z.eqb_spec j wid) as [->|Hne]; [|reflexivity].
    rewrite Nat.iter_succ_r. reflexivity.
Qed.

Lemma rows_thread_ext A N G b t s s' :
  (forall j, cells s j = cells s' j) ->
  same_cells (rows_thread A N G b t s) (rows_thread A N G b t s').
Proof.
  intros H. unfold rows_thread.
  destruct (thread_calls A N G b t) as [c|]; cbn [obind same_cells]; [|exact I].
  intros j. rewrite !warp_groups_singles, !H. reflexivity.
Qed.

Lemma block_rows_from_ext A N G b ts : forall s s',
  (forall j, cells s j = cells s' j) ->
  same_cells (block_rows_from A N G b ts s) (block_rows_from A N G b ts s').
Proof.
  induction ts as [|t ts IH]; intros s s' H; cbn [block_rows_from].
  - exact H.
  - pose proof (rows_thread_ext A N G b t s s' H) as E.
    destruct (rows_thread A N G b t s) as [s1|];
      destruct (rows_thread A N G b t s') as [s1'|]; cbn [obind same_cells] in *;
      try contradiction; [apply IH, E | exact I].
Qed.

Lemma same_cells_trans o1 o2 o3 : same_cells o1 o2 -> same_cells o2 o3 -> same_cells o1 o3.
Proof.
  destruct o1, o2, o3; cbn [same_cells]; try contradiction; try exact (fun _ _ => I).
  intros H1 H2 j. rewrite H1. apply H2.
Qed.

(** Two threads of the row phase may run in either order. *)
Lemma rows_thread_swap A N G b x y s s' :
  (forall j, cells s j = cells s' j) ->
  same_cells (s1 <- rows_thread A N G b y s ;; rows_thread A N G b x s1)
             (s1 <- rows_thread A N G b x s' ;; rows_thread A N G b y s1).
Proof.
  intros H. unfold rows_thread.
  destruct (thread_calls A N G b x) as [cx|]; destruct (thread_calls A N G b y) as [cy|];
    cbn [obind same_cells]; try exact I.
  intros j. rewrite !warp_groups_singles.
  destruct (Z.eqb_spec j (x / warpSize)) as [Ex|Ex];
    destruct (Z.eqb_spec j (y / warpSize)) as [Ey|Ey].
  - rewrite <- Ex, <- Ey, !Z.eqb_refl, !H.
    rewrite <- !Nat.iter_add. f_equal. lia.
  - rewrite <- Ex. destruct (Z.eqb_spec j (y / warpSize)); [contradiction|].
    rewrite H. reflexivity.
  - rewrite <- Ey. destruct (Z.eqb_spec j (x / warpSize)); [contradiction|].
    rewrite H. reflexivity.
  - apply H.
Qed.

(** The row phase of a block leaves the same slots in whatever order its
    threads run. *)
Lemma block_rows_order A N G b ts ts' :
  Permutation ts ts' -> forall s s',
  (forall j, cells s j = cells s' j) ->
  same_cells (block_rows_from A N G b ts s) (block_rows_from A N G b ts' s').
Proof.
  induction 1 as [|t ts ts' P IH|x y ts|ts1 ts2 ts3 P1 IH1 P2 IH2]; intros s s' H.
  - exact H.
  - cbn [block_rows_from].
    pose proof (rows_thread_ext A N G b t s s' H) as E.
    destruct (rows_thread A N G b t s) as [s1|];
      destruct (rows_thread A N G b t s') as [s1'|]; cbn [obind same_cells] in *;
      try contradiction; [apply IH, E | exact I].
  - cbn [block_rows_from].
    pose proof (rows_thread_swap A N G b x y s s' H) as E.
    destruct (rows_thread A N G b y s) as [s1|]; cbn [obind] in *.
    + destruct (rows_thread A N G b x s1) as [s2|];
        destruct (rows_thread A N G b x s') as [s1'|]; cbn [obind same_cells] in *;
        try (destruct (rows_thread A N G b y s1') as [s2'|]; cbn [obind same_cells] in * );
        try contradiction; try exact I.
      apply block_rows_from_ext, E.
    + destruct (rows_thread A N G b x s') as [s1'|]; cbn [obind same_cells] in *;
        [|exact I].
      destruct (rows_thread A N G b y s1') as [s2'|]; cbn [obind same_cells] in *;
        [contradiction|exact I].
  - eapply same_cells_trans; [apply (IH1 s s); reflexivity | apply IH2, H].
Qed.

Lemma grid_calls_from_perm A N G B bs bs' :
  Permutation bs bs' -> grid_calls_from A N G B bs = grid_calls_from A N G B bs'.
Proof.
  induction 1 as [|b bs bs' P IH|x y bs|bs1 bs2 bs3 P1 IH1 P2 IH2];
    cbn [grid_calls_from].
  - reflexivity.
  - rewrite IH. reflexivity.
  - destruct (block_calls A N G B x) as [dx|]; destruct (block_calls A N G B y) as [dy|];
      cbn [obind]; try reflexivity.
    destruct (grid_calls_from A N G B bs) as [r|]; cbn [obind]; [|reflexivity].
    f_equal. lia.
  - congruence.
Qed.

(** The grid leaves the same value in whatever order its blocks run. *)
Lemma grid_order A N G B u bs bs' nT :
  1 <= B <= 1024 -> INT_MIN <= nT <= INT_MAX -> Permutation bs bs' ->
  grid_from A N G B u bs nT = grid_from A N G B u bs' nT.
Proof.
  intros HB HnT P. rewrite !grid_from_result by assumption.
  rewrite (grid_calls_from_perm A N G B bs bs' P). reflexivity.
Qed.

(** * Further properties of the kernels *)

(** ** Threads without rows *)

Lemma thread_calls_idle A N G b t :
  N <= wrap32 (t / warpSize + b * numberOfWarps) -> thread_calls A N G b t = Some 0.
Proof.
  intros H. unfold thread_calls. cbv zeta. cbn [row_loop].
  destruct (Z.ltb_spec (wrap32 (t / warpSize + b * numberOfWarps)) N); [lia|reflexivity].
Qed.

(** A thread whose first row [wid + blockIdx.x * numberOfWarps] is not
    below [N] makes no call of [warpReduceSum] and reads no array. *)
Lemma thread_beyond_rows_is_idle A N G b t :
  0 <= t < 1024 -> 0 <= b -> b * numberOfWarps + warpSize <= INT_MAX ->
  N <= t / warpSize + b * numberOfWarps ->
  thread_calls A N G b t = Some 0.
Proof.
  intros Ht Hb Hov HN. apply thread_calls_idle.
  destruct (lane_wid_bounds t Ht) as [_ Hw].
  rewrite wrap32_id by int_range. exact HN.
Qed.

Lemma block_calls_from_idle A N G b ts :
  (forall t, In t ts -> thread_calls A N G b t = Some 0) ->
  block_calls_from A N G b ts = Some 0.
Proof.
  induction ts as [|t ts IH]; intros H; cbn [block_calls_from]; [reflexivity|].
  rewrite (H t (or_introl eq_refl)). cbn [obind].
  rewrite IH by (intros t' Ht'; apply H; right; exact Ht'). reflexivity.
Qed.

Lemma grid_calls_from_idle A N G B bs :
  (forall b, In b bs -> block_calls A N G B b = Some 0) ->
  grid_calls_from A N G B bs = Some 0.
Proof.
  induction bs as [|b bs IH]; intros H; cbn [grid_calls_from]; [reflexivity|].
  rewrite (H b (or_introl eq_refl)). cbn [obind].
  rewrite IH by (intros b' Hb'; apply H; right; exact Hb'). reflexivity.
Qed.

(** X1: with [N <= 0] the kernel leaves the accumulator as it was and
    touches no array of the structure, whatever the structure holds and
    whatever the launch. *)
Theorem no_rows_leave_accumulator A N G B u nT :
  N <= 0 -> 1 <= B <= 1024 -> numberOfWarps * G + warpSize <= INT_MAX ->
  INT_MIN <= nT <= INT_MAX ->
  cuFindTriangles A N G B u nT = Some nT.
Proof.
  intros HN HB HG HnT.
  rewrite cuFindTriangles_result by assumption.
  unfold grid_calls. rewrite grid_calls_from_idle.
  - cbn [option_map]. rewrite Z.add_0_r, wrap32_id by assumption. reflexivity.
  - intros b Hb. apply in_zrange in Hb. unfold block_calls.
    apply block_calls_from_idle. intros t Ht. apply in_zrange in Ht.
    apply thread_beyond_rows_is_idle; try int_range.
    destruct (lane_wid_bounds t ltac:(lia)) as [_ Hw]. int_range.
Qed.

Lemma no_rows_leave_accumulator_witness :
  cuFindTriangles (mkCsr 0 [] [] []) 0 3 64 junk 17 = Some 17.
Proof.
  apply (no_rows_leave_accumulator (mkCsr 0 [] [] []) 0 3 64 junk 17);
    [lia | lia | vm_compute; discriminate | vm_compute; split; discriminate].
Defined.

(** ** Entries the kernel does not check *)

Lemma rd_out a i : Z.of_nat (length a) <= i -> rd a i = None.
Proof.
  intros H. unfold rd. destruct (Z.ltb_spec i 0); [reflexivity|].
  apply nth_error_None. lia.
Qed.

(** X2: the kernel does not check column indices.  When [rowPtr] has
    [N + 1] offsets and a visited entry holds a column [col > row] with
    [col >= N], the intersection loop reads [csrRowPtr] outside the array:
    the loop body has no result. *)
Theorem column_out_of_range_reads_outside A N row j col calls :
  Z.of_nat (length (csrRowPtr A)) = N + 1 ->
  rd (csrColInd A) j = Some col -> col > row -> N <= col ->
  edge_body A row j calls = None.
Proof.
  intros Hlen Hj Hgt HN. unfold edge_body. rewrite Hj. cbn [obind].
  destruct (Z.gtb_spec col row); [|lia].
  destruct (rd (csrRowPtr A) row) as [b0|]; cbn [obind]; [|reflexivity].
  destruct (rd (csrRowPtr A) col) as [k0|]; cbn [obind]; [|reflexivity].
  unfold loop_fuel. cbn [col_loop].
  destruct (int_add col 1) as [c1|] eqn:E; cbn [obind]; [|reflexivity].
  unfold int_add in E. destruct (in_int (col + 1)); [|discriminate].
  injection E as <-. rewrite rd_out by lia. reflexivity.
Qed.

Lemma column_out_of_range_reads_outside_witness :
  edge_body B3 0 1 0 = None.
Proof.
  apply (column_out_of_range_reads_outside B3 3 0 1 3 0);
    [reflexivity | reflexivity | reflexivity | lia].
Defined.

Example column_out_of_range_stops_the_kernel :
  cuFindTriangles B3 3 1 256 junk (cuZeroVariable 0) = None.
Proof. vm_compute. reflexivity. Qed.

(** ** The accumulator *)

(** X3: the kernel only adds to the accumulator.  When a run from 0 leaves
    [v], a run from any [int] value [nT] leaves [nT + v] as an [int],
    whatever the shared memory holds at either run. *)
Theorem kernel_adds_to_any_start A N G B u1 u2 nT v :
  1 <= B <= 1024 -> INT_MIN <= nT <= INT_MAX ->
  cuFindTriangles A N G B u1 0 = Some v ->
  cuFindTriangles A N G B u2 nT = Some (wrap32 (nT + v)).
Proof.
  intros HB HnT.
  rewrite !cuFindTriangles_result by (try assumption; int_range).
  destruct (grid_calls A N G B) as [d|]; cbn [option_map]; [|discriminate].
  rewrite Z.add_0_l. intros [= <-]. rewrite wrap32_add_r. reflexivity.
Qed.

Lemma kernel_adds_to_any_start_witness :
  cuFindTriangles K4 4 2 256 (fun _ _ => 1) (-5) = Some (wrap32 (-5 + 12)).
Proof.
  apply (kernel_adds_to_any_start K4 4 2 256 junk (fun _ _ => 1) (-5) 12);
    [lia | vm_compute; split; discriminate | reflexivity].
Defined.

(** ** The scan on any row, sorted or not *)

Lemma ind_nonneg b : 0 <= ind b.
Proof. destruct b; simpl; lia. Qed.

Lemma Sum_le_sub lo a b hi f :
  lo <= a -> a <= b -> b <= hi -> (forall i, lo <= i < hi -> 0 <= f i) ->
  Sum a b f <= Sum lo hi f.
Proof.
  intros H1 H2 H3 Hf.
  rewrite (Sum_split lo a hi), (Sum_split a b hi) by lia.
  pose proof (Sum_nonneg lo a f ltac:(intros i Hi; apply Hf; lia)).
  pose proof (Sum_nonneg b hi f ltac:(intros i Hi; apply Hf; lia)).
  lia.
Qed.

(** The scan stops on the first entry above [x], or runs to the end and
    keeps the cursor; it counts the entries equal to [x] that it passes. *)
Lemma scan_pure_stop c x b : forall n l,
  (fst (scan_pure n c x l b) = b
   /\ (forall i, l <= i < l + Z.of_nat n -> c i <= x)
   /\ snd (scan_pure n c x l b) = Sum l (l + Z.of_nat n) (fun i => ind (x =? c i)))
  \/ (l <= fst (scan_pure n c x l b) < l + Z.of_nat n
      /\ x < c (fst (scan_pure n c x l b))
      /\ (forall i, l <= i < fst (scan_pure n c x l b) -> c i <= x)
      /\ snd (scan_pure n c x l b)
         = Sum l (fst (scan_pure n c x l b)) (fun i => ind (x =? c i))).
Proof.
  induction n as [|n IH]; intros l; cbn [scan_pure].
  - left. cbn [fst snd]. rewrite Sum_nil by lia. repeat split. intros i Hi. lia.
  - specialize (IH (l + 1)).
    destruct (Z.eqb_spec x (c l)) as [E|E].
    + destruct (scan_pure n c x (l + 1) b) as [b' m]. cbn [fst snd] in *.
      destruct IH as [(H1 & H2 & H3)|(H1 & H2 & H3 & H4)].
      * left. split; [exact H1|]. split.
        -- intros i Hi. destruct (Z.eq_dec i l) as [->|]; [lia|apply H2; lia].
        -- rewrite (Sum_step l) by lia. destruct (Z.eqb_spec x (c l)); [|contradiction].
           rewrite H3. change (ind true) with 1.
           replace (l + Z.of_nat (S n)) with (l + 1 + Z.of_nat n) by lia. lia.
      * right. split; [lia|]. split; [exact H2|]. split.
        -- intros i Hi. destruct (Z.eq_dec i l) as [->|]; [lia|apply H3; lia].
        -- rewrite (Sum_step l) by lia. destruct (Z.eqb_spec x (c l)); [|contradiction].
           rewrite H4. change (ind true) with 1. lia.
    + destruct (Z.gtb_spec (c l) x) as [G|G]; cbn [fst snd].
      * right. split; [lia|]. split; [lia|]. split; [intros i Hi; lia|].
        rewrite Sum_nil by lia. reflexivity.
      * destruct IH as [(H1 & H2 & H3)|(H1 & H2 & H3 & H4)].
        -- left. split; [exact H1|]. split.
           ++ intros i Hi. destruct (Z.eq_dec i l) as [->|]; [lia|apply H2; lia].
           ++ rewrite (Sum_step l) by lia. destruct (Z.eqb_spec x (c l)); [contradiction|].
              rewrite H3. change (ind false) with 0.
              replace (l + Z.of_nat (S n)) with (l + 1 + Z.of_nat n) by lia. lia.
        -- right. split; [lia|]. split; [exact H2|]. split.
           ++ intros i Hi. destruct (Z.eq_dec i l) as [->|]; [lia|apply H3; lia].
           ++ rewrite (Sum_step l) by lia. destruct (Z.eqb_spec x (c l)); [contradiction|].
              rewrite H4. change (ind false) with 0. lia.
Qed.

(** X4: the scan of lines 149-164, on a well-formed structure and any row,
    sorted or not, started at an index [l] of the row: either no entry
    from [l] on exceeds [csc_row], the cursor [beginPtr_csr_row] is kept
    and every entry from [l] on equal to [csc_row] is recorded; or the
    cursor is set to the first index from [l] on whose entry exceeds
    [csc_row], and the equal entries before it are recorded. *)
Theorem scan_stops_at_first_larger_entry A N row x l b calls :
  wf_csr A N = true -> 0 <= row < N -> rP A row <= l <= rP A (row + 1) ->
  exists b' m,
    scan_row (loop_fuel A) A row x l b calls = Some (b', calls + m)
    /\ ((b' = b
         /\ (forall i, l <= i < rP A (row + 1) -> cI A i <= x)
         /\ m = Sum l (rP A (row + 1)) (fun i => ind (x =? cI A i)))
        \/ (l <= b' < rP A (row + 1)
            /\ x < cI A b'
            /\ (forall i, l <= i < b' -> cI A i <= x)
            /\ m = Sum l b' (fun i => ind (x =? cI A i)))).
Proof.
  intros W Hrow Hl. apply wf_csr_WF in W.
  pose proof (rP_bounds _ _ W row ltac:(lia)).
  pose proof (rP_bounds _ _ W (row + 1) ltac:(lia)).
  set (n := Z.to_nat (rP A (row + 1) - l)).
  exists (fst (scan_pure n (cI A) x l b)), (snd (scan_pure n (cI A) x l b)).
  split.
  - apply (scan_row_pure A N W row x Hrow n); unfold loop_fuel; lia.
  - pose proof (scan_pure_stop (cI A) x b n l) as Hs.
    replace (l + Z.of_nat n) with (rP A (row + 1)) in Hs by lia. exact Hs.
Qed.

Lemma scan_stops_at_first_larger_entry_witness :
  exists b' m,
    scan_row (loop_fuel U3) U3 0 1 0 0 0 = Some (b', 0 + m)
    /\ ((b' = 0
         /\ (forall i, 0 <= i < rP U3 (0 + 1) -> cI U3 i <= 1)
         /\ m = Sum 0 (rP U3 (0 + 1)) (fun i => ind (1 =? cI U3 i)))
        \/ (0 <= b' < rP U3 (0 + 1)
            /\ 1 < cI U3 b'
            /\ (forall i, 0 <= i < b' -> cI U3 i <= 1)
            /\ m = Sum 0 b' (fun i => ind (1 =? cI U3 i)))).
Proof.
  apply (scan_stops_at_first_larger_entry U3 3 0 1 0 0 0);
    [reflexivity | lia | vm_compute; split; discriminate].
Defined.

Lemma col_pure_le c lo hi : forall n k b,
  lo <= b <= hi ->
  0 <= col_pure n c hi k b
  <= Sum k (k + Z.of_nat n) (fun k' => Sum lo hi (fun i => ind (c k' =? c i))).
Proof.
  induction n as [|n IH]; intros k b Hb; cbn [col_pure].
  - rewrite Sum_nil by lia. lia.
  - rewrite (Sum_step k) by lia.
    pose proof (scan_pure_stop c (c k) b (Z.to_nat (hi - b)) b) as H.
    pose proof (scan_pure_nonneg (Z.to_nat (hi - b)) c (c k) b b) as Hm.
    destruct (scan_pure (Z.to_nat (hi - b)) c (c k) b b) as [b' m]. cbn [fst snd] in *.
    assert (Hb' : lo <= b' <= hi) by (destruct H as [(-> & _)|(H1 & _)]; lia).
    assert (Hle : m <= Sum lo hi (fun i => ind (c k =? c i))).
    { destruct H as [(_ & _ & ->)|(H1 & _ & _ & ->)];
        apply Sum_le_sub; try lia; intros i _; apply ind_nonneg. }
    specialize (IH (k + 1) b' Hb').
    replace (k + Z.of_nat (S n)) with (k + 1 + Z.of_nat n) by lia. lia.
Qed.

(** X5: on a well-formed structure, whatever the order of the entries in
    the rows, the contributions recorded for a processed entry never exceed
    the number of pairs of equal entries of the two rows: an unsorted row
    can lose matches, never add one. *)
Theorem unsorted_rows_never_overcount A N row j calls :
  wf_csr A N = true -> 0 <= row < N -> rP A row <= j < rP A (row + 1) ->
  cI A j > row ->
  exists m,
    edge_body A row j calls = Some (calls + m)
    /\ 0 <= m <= naive_intersection A row (cI A j).
Proof.
  intros W Hrow Hj Hc. apply wf_csr_WF in W.
  pose proof (rP_bounds _ _ W row ltac:(lia)).
  pose proof (rP_bounds _ _ W (row + 1) ltac:(lia)).
  pose proof (wf_cols _ _ W j ltac:(lia)) as Hcol.
  pose proof (wf_mono _ _ W row ltac:(lia)).
  pose proof (wf_mono _ _ W (cI A j) ltac:(lia)).
  exists (entry_calls A row j). split.
  - apply (edge_body_pure A N W); lia.
  - unfold entry_calls. destruct (Z.gtb_spec (cI A j) row); [|lia].
    unfold edge_calls, naive_intersection.
    pose proof (col_pure_le (cI A) (rP A row) (rP A (row + 1))
                  (Z.to_nat (rP A (cI A j + 1) - rP A (cI A j)))
                  (rP A (cI A j)) (rP A row) ltac:(lia)) as Hle.
    replace (rP A (cI A j) + Z.of_nat (Z.to_nat (rP A (cI A j + 1) - rP A (cI A j))))
      with (rP A (cI A j + 1)) in Hle by lia.
    exact Hle.
Qed.

Lemma unsorted_rows_never_overcount_witness :
  exists m,
    edge_body U3 0 0 0 = Some (0 + m)
    /\ 0 <= m <= naive_intersection U3 0 (cI U3 0).
Proof.
  apply (unsorted_rows_never_overcount U3 3 0 0 0);
    [reflexivity | lia | vm_compute; split; [discriminate | reflexivity] | reflexivity].
Defined.

Example unsorted_row_loses_a_match :
  edge_body U3 0 0 0 = Some 0 /\ naive_intersection U3 0 (cI U3 0) = 1.
Proof. vm_compute. split; reflexivity. Qed.

(** ** The halving tree on other group sizes *)

(** X6: run by a group whose size is a power of two, 2 or more,
    [blockReduceSum] leaves in slot 0 the total of all the slots of the
    group, as an [int]. *)
Theorem tree_sums_a_power_of_two k s :
  cells (blockReduceSum (2 ^ Z.of_nat (S k)) s) 0
  = wrap32 (Sum 0 (2 ^ Z.of_nat (S k)) (cells s)).
Proof.
  assert (E : 2 ^ Z.of_nat (S k) = 2 * 2 ^ Z.of_nat k).
  { rewrite Nat2Z.inj_succ, Z.pow_succ_r by lia. reflexivity. }
  assert (Hp : 0 < 2 ^ Z.of_nat k) by (apply Z.pow_pos_nonneg; lia).
  pose proof (Z.pow_gt_lin_r 2 (Z.of_nat (S k)) ltac:(lia) ltac:(lia)) as Hlin.
  unfold blockReduceSum.
  replace (2 ^ Z.of_nat (S k) / 2) with (2 ^ Z.of_nat k)
    by (rewrite E, Z.mul_comm, Z.div_mul by lia; reflexivity).
  rewrite reduce_pow2.
  - replace (Z.of_nat k + 1) with (Z.of_nat (S k)) by lia. reflexivity.
  - replace (Z.of_nat k + 1) with (Z.of_nat (S k)) by lia. lia.
  - lia.
Qed.

Lemma reduce_rounds_ext g : 0 <= g -> forall fuel i s s',
  0 <= i ->
  (forall j, 0 <= j < Z.max 1 (2 * i) -> cells s j = cells s' j) ->
  cells (reduce_rounds fuel g i s) 0 = cells (reduce_rounds fuel g i s') 0.
Proof.
  intros Hg. induction fuel as [|fuel IH]; intros i s s' Hi H; cbn [reduce_rounds].
  - apply H. lia.
  - destruct (Z.ltb_spec 0 i); [|apply H; lia].
    assert (0 <= i / 2) by (apply Z.div_pos; lia).
    assert (2 * (i / 2) <= i) by (apply Z.mul_div_le; lia).
    apply IH; [assumption|].
    intros j Hj. rewrite !reduce_round_cells by lia.
    destruct (Z.leb_spec 0 j); destruct (Z.ltb_spec j (Z.min g i)); cbn [andb];
      try (apply H; lia).
    rewrite (H j), (H (j + i)) by lia. reflexivity.
Qed.

(** X7: [blockReduceSum] run by [g >= 2] threads reads no slot at or above
    [2 * (g / 2)]: two states that agree below it give the same [sum[0]].
    With an odd group the slot of the last thread is left out. *)
Theorem tree_leaves_out_the_odd_slot g s s' :
  2 <= g -> same_slots (2 * (g / 2)) s s' = true ->
  cells (blockReduceSum g s) 0 = cells (blockReduceSum g s') 0.
Proof.
  intros Hg H. unfold blockReduceSum.
  assert (1 <= g / 2) by (apply Z.div_le_lower_bound; lia).
  apply reduce_rounds_ext; try lia.
  intros j Hj. unfold same_slots in H.
  apply Z.eqb_eq. apply (forallb_zrange _ _ _ H j). lia.
Qed.

Lemma tree_leaves_out_the_odd_slot_witness :
  cells (blockReduceSum 5 (mkShmem (fun j => j) [])) 0
  = cells (blockReduceSum 5 (mkShmem (fun j => if j =? 4 then 100 else j) [])) 0.
Proof.
  apply (tree_leaves_out_the_odd_slot 5); [lia | reflexivity].
Defined.

(** ** The indices used on the shared array *)

Lemma warp_singles_trace lane wid : forall n s,
  trace (warp_groups (repeat [lane] n) wid s) = repeat wid n ++ trace s.
Proof.
  induction n as [|n IH]; intros s; [reflexivity|].
  cbn [repeat]. unfold warp_groups in *. cbn [fold_left]. rewrite IH.
  rewrite warpReduceSum_group by discriminate. cbn [sh_atomicAdd trace].
  rewrite (repeat_cons n wid), <- app_assoc. reflexivity.
Qed.

Section Trace.

Variable m : Z.
Local Notation "'inside'" := (fun i : Z => 0 <= i < m).

Lemma block_init_inside : forall ts s,
  (forall t, In t ts -> 0 <= t /\ (t < warpSize -> t < m)) ->
  Forall inside (trace s) ->
  Forall inside (trace (fold_left (fun s t => init_thread t s) ts s)).
Proof.
  induction ts as [|t ts IH]; intros s Ht H; cbn [fold_left]; [exact H|].
  apply IH; [intros t' Ht'; apply Ht; right; exact Ht'|].
  destruct (Ht t (or_introl eq_refl)) as [H0 Hm].
  unfold init_thread, warpSize in *.
  destruct (Z.ltb_spec t 32) as [Hlt|Hge].
  - rewrite Z.div_small, Z.mod_small by lia. cbn [Z.eqb sh_store trace].
    constructor; [cbv beta; lia | exact H].
  - assert (1 <= t / 32) by (apply Z.div_le_lower_bound; lia).
    destruct (Z.eqb_spec (t / 32) 0); [lia|exact H].
Qed.

Lemma block_rows_inside A N G b : forall ts s s',
  (forall t, In t ts -> inside (t / warpSize)) ->
  block_rows_from A N G b ts s = Some s' ->
  Forall inside (trace s) -> Forall inside (trace s').
Proof.
  induction ts as [|t ts IH]; intros s s' Ht E H; cbn [block_rows_from] in E.
  - injection E as <-. exact H.
  - unfold rows_thread in E.
    destruct (thread_calls A N G b t) as [c|]; cbn [obind] in E; [|discriminate].
    apply (IH _ _ (fun t' Ht' => Ht t' (or_intror Ht')) E).
    rewrite warp_singles_trace. apply Forall_app. split; [|exact H].
    apply Forall_forall. intros x Hx. apply repeat_spec in Hx. subst x.
    apply Ht. left. reflexivity.
Qed.

Lemma reduce_round_inside i : 0 < i -> 2 * i <= m -> forall ls s,
  (forall l, In l ls -> 0 <= l) ->
  Forall inside (trace s) ->
  Forall inside
    (trace (fold_left (fun s lane => if lane <? i then sh_add_from lane (lane + i) s else s)
                      ls s)).
Proof.
  intros Hi Hm. induction ls as [|l ls IH]; intros s Hl H; cbn [fold_left]; [exact H|].
  apply IH; [intros l' Hl'; apply Hl; right; exact Hl'|].
  pose proof (Hl l (or_introl eq_refl)).
  destruct (Z.ltb_spec l i); [|exact H].
  cbn [sh_add_from trace]. repeat constructor; try (cbv beta; lia). exact H.
Qed.

Lemma reduce_rounds_inside g : forall fuel i s,
  0 <= i -> 2 * i <= m ->
  Forall inside (trace s) -> Forall inside (trace (reduce_rounds fuel g i s)).
Proof.
  induction fuel as [|fuel IH]; intros i s Hi Hm H; cbn [reduce_rounds]; [exact H|].
  destruct (Z.ltb_spec 0 i); [|exact H].
  assert (0 <= i / 2) by (apply Z.div_pos; lia).
  assert (2 * (i / 2) <= i) by (apply Z.mul_div_le; lia).
  apply IH; try lia. unfold reduce_round.
  apply reduce_round_inside; try assumption; try lia.
  intros l Hl. apply in_zrange in Hl. lia.
Qed.

(** Every index a block uses on [sum] is below [m], when [m] covers the
    lanes that zero their slot and the warps of the block. *)
Lemma block_inside A N G B b sum nT s' nT' :
  1 <= B -> Z.min B warpSize <= m -> warps_in_block B <= m ->
  cuFindTriangles_block A N G B b sum nT = Some (s', nT') ->
  Forall inside (trace sum) -> Forall inside (trace s').
Proof.
  intros HB Hm1 Hm2 E H. unfold cuFindTriangles_block in E.
  destruct (block_rows A N G B b (block_init B sum)) as [s1|] eqn:E1;
    cbn [obind] in E; [|discriminate].
  injection E as <- _. cbn [block_commit fst trace].
  pose proof (warps_in_block_bound B 0 ltac:(lia)) as Hw0.
  constructor; [cbv beta; lia|].
  unfold block_reduce, blockReduceSum.
  assert (0 <= Z.min B warpSize / 2) by (apply Z.div_pos; unfold warpSize; lia).
  assert (2 * (Z.min B warpSize / 2) <= Z.min B warpSize)
    by (apply Z.mul_div_le; lia).
  apply reduce_rounds_inside; try lia.
  unfold block_rows in E1.
  apply (block_rows_inside A N G b _ _ _
           ltac:(intros t Ht; apply in_zrange in Ht;
                 pose proof (warps_in_block_bound B t Ht); cbv beta; lia) E1).
  unfold block_init. apply block_init_inside; [|exact H].
  intros t Ht. apply in_zrange in Ht. split; [lia|]. intros Hlt. lia.
Qed.

End Trace.

Lemma trace_below_Forall m s : trace_below m s = true <-> Forall (fun i => 0 <= i < m) (trace s).
Proof.
  unfold trace_below. rewrite forallb_forall, Forall_forall.
  split; intros H i Hi; specialize (H i Hi).
  - apply andb_true_iff in H. destruct H as [H1 H2].
    apply Z.leb_le in H1. apply Z.ltb_lt in H2. lia.
  - apply andb_true_iff. split; [apply Z.leb_le | apply Z.ltb_lt]; lia.
Qed.

(** X8: in every block of 1 to 1024 threads that returns, every index
    used on [sum] (line 124, [warpReduceSum], [blockReduceSum], line 178)
    is inside [[0, warpSize)]; and when the block has at most
    [numberOfWarps] threads every index is inside the declared
    [[0, numberOfWarps)]. *)
Theorem sum_indices_stay_below_warpSize A N G B b c nT s' nT' :
  1 <= B <= 1024 ->
  cuFindTriangles_block A N G B b (mkShmem c []) nT = Some (s', nT') ->
  trace_below warpSize s' = true
  /\ (B <= numberOfWarps -> trace_below numberOfWarps s' = true).
Proof.
  intros HB E.
  assert (Hw : warps_in_block B <= warpSize).
  { unfold warps_in_block, warpSize. apply Z.lt_succ_r.
    apply Z.div_lt_upper_bound; lia. }
  split.
  - apply trace_below_Forall.
    apply (block_inside warpSize A N G B b (mkShmem c []) nT s' nT'); try lia; try assumption.
    constructor.
  - intros H8. apply trace_below_Forall.
    assert (HW : warps_in_block B = 1).
    { unfold warps_in_block, warpSize, numberOfWarps in *. symmetry.
      apply (Z.div_unique (B + 32 - 1) 32 1 (B - 1)); lia. }
    apply (block_inside numberOfWarps A N G B b (mkShmem c []) nT s' nT');
      try assumption; unfold numberOfWarps, warpSize in *; try lia.
    constructor.
Qed.

Lemma sum_indices_stay_below_warpSize_witness :
  exists s' nT',
    cuFindTriangles_block K3 3 1 8 0 (mkShmem (junk 0) []) 0 = Some (s', nT')
    /\ trace_below warpSize s' = true
    /\ (8 <= numberOfWarps -> trace_below numberOfWarps s' = true).
Proof.
  eexists. eexists. split; [vm_compute; reflexivity|].
  apply (sum_indices_stay_below_warpSize K3 3 1 8 0 (junk 0) 0 _ 2);
    [lia | vm_compute; reflexivity].
Defined.

(** ** The slot of a warp *)

Lemma block_rows_from_slot A N G b j f : forall n lo s s',
  (forall t, lo <= t < lo + Z.of_nat n ->
     thread_calls A N G b t = Some (f t) /\ 0 <= f t) ->
  block_rows_from A N G b (zseq lo n) s = Some s' ->
  eqm (cells s' j)
      (cells s j + sumZ n lo (fun t => if t / warpSize =? j then f t else 0)).
Proof.
  induction n as [|n IH]; intros lo s s' Hf E; cbn [zseq block_rows_from sumZ] in *.
  - injection E as <-. apply eqm_of_eq. lia.
  - destruct (Hf lo ltac:(lia)) as [Hc H0].
    unfold rows_thread in E. rewrite Hc in E. cbn [obind] in E.
    assert (Hf' : forall t, lo + 1 <= t < lo + 1 + Z.of_nat n ->
                    thread_calls A N G b t = Some (f t) /\ 0 <= f t)
      by (intros t Ht; apply Hf; lia).
    eapply eqm_trans; [apply (IH _ _ _ Hf' E)|].
    rewrite Z.add_assoc. apply eqm_add; [|apply eqm_refl].
    destruct (Z.eqb_spec (lo / warpSize) j) as [<-|Hne].
    + pose proof (warp_groups_same (repeat [lo mod warpSize] (Z.to_nat (f lo)))
                    (lo / warpSize) s) as H.
      rewrite concat_repeat_single, Z2Nat.id in H by assumption. exact H.
    + rewrite warp_groups_other by congruence. apply eqm_of_eq. lia.
Qed.

Lemma Sum_of_warp B w f : 0 <= w -> w * warpSize <= B ->
  Sum 0 B (fun t => if t / warpSize =? w then f t else 0)
  = Sum 0 (Z.min warpSize (B - w * warpSize)) (fun lane => f (w * warpSize + lane)).
Proof.
  intros Hw HB. unfold warpSize in *.
  rewrite (Sum_split 0 (w * 32) B) by lia.
  rewrite (Sum_split (w * 32) (w * 32 + Z.min 32 (B - w * 32)) B) by lia.
  rewrite (Sum_zero 0 (w * 32)), (Sum_zero (w * 32 + Z.min 32 (B - w * 32)) B).
  - rewrite Z.add_0_l, Z.add_0_r.
    replace (w * 32) with (0 + w * 32) at 1 by lia.
    replace (w * 32 + Z.min 32 (B - w * 32)) with (Z.min 32 (B - w * 32) + w * 32) by lia.
    rewrite <- (Sum_shift 0 (Z.min 32 (B - w * 32)) (w * 32)
                  (fun t => if t / 32 =? w then f t else 0)).
    apply Sum_ext. intros lane Hl. cbv beta.
    replace ((lane + w * 32) / 32) with w
      by (apply (Z.div_unique (lane + w * 32) 32 w lane); lia).
    rewrite Z.eqb_refl. f_equal. lia.
  - intros t Ht. destruct (Z.eqb_spec (t / 32) w) as [E|]; [|reflexivity].
    pose proof (Z.div_mod t 32 ltac:(lia)). pose proof (Z.mod_pos_bound t 32 ltac:(lia)).
    lia.
  - intros t Ht. destruct (Z.eqb_spec (t / 32) w) as [E|]; [|reflexivity].
    pose proof (Z.div_mod t 32 ltac:(lia)). pose proof (Z.mod_pos_bound t 32 ltac:(lia)).
    lia.
Qed.

(** X9: on a well-formed input under an accepted launch, the row phase of
    a block returns, and the slot of every warp of the block then holds
    the match events found by the threads of that warp and nothing else,
    as an [int]: no warp adds to the slot of another. *)
Theorem warp_slot_holds_its_own_matches A N G B b sum :
  wf_csr A N = true -> launch_ok A N G B = true -> 0 <= b < G ->
  exists s1,
    block_rows A N G B b (block_init B sum) = Some s1
    /\ forall w, 0 <= w < warps_in_block B ->
         cells s1 w
         = wrap32 (warp_matches A N G b w (Z.min warpSize (B - w * warpSize))).
Proof.
  intros W L Hb. apply wf_csr_WF in W. apply launch_ok_Launch in L.
  pose proof (la_block _ _ _ _ L) as HB.
  destruct (block_rows_returns A N G B b (block_init B sum) W L Hb) as [s1 E].
  exists s1. split; [exact E|]. intros w Hw.
  assert (HwB : w * warpSize < B).
  { unfold warps_in_block, warpSize in *.
    pose proof (Z.mul_div_le (B + 32 - 1) 32 ltac:(lia)). lia. }
  assert (Hinit : cells (block_init B sum) w = 0).
  { rewrite block_init_cells by lia. unfold warpSize in *.
    assert (warps_in_block B <= 32).
    { unfold warps_in_block, warpSize. apply Z.lt_succ_r.
      apply Z.div_lt_upper_bound; lia. }
    destruct (Z.leb_spec 0 w); destruct (Z.ltb_spec w (Z.min B 32));
      cbn [andb]; try reflexivity; lia. }
  unfold block_rows, zrange in E.
  assert (Hf : forall t, 0 <= t < 0 + Z.of_nat (Z.to_nat (B - 0)) ->
                 thread_calls A N G b t = Some (thread_sum A N G b t)
                 /\ 0 <= thread_sum A N G b t).
  { intros t Ht. split; [|apply thread_sum_nonneg].
    apply (thread_calls_pure A N G B); try assumption; lia. }
  pose proof (block_rows_from_slot A N G b w (thread_sum A N G b) _ _ _ _ Hf E) as H.
  rewrite Hinit, Z.add_0_l in H. fold (Sum 0 B (fun t => if t / warpSize =? w
                                                  then thread_sum A N G b t else 0)) in H.
  rewrite Sum_of_warp in H by lia.
  rewrite <- (wrap32_id (cells s1 w)).
  - unfold eqm in H. rewrite H. f_equal. unfold warp_matches.
    apply Sum_ext. intros lane Hl.
    rewrite (thread_calls_pure A N G B) by (try assumption; unfold warpSize in *; lia).
    reflexivity.
  - apply (block_rows_from_int A N G b w _ _ _ E). rewrite Hinit. int_range.
Qed.

Lemma warp_slot_holds_its_own_matches_witness :
  exists s1,
    block_rows K4 4 1 40 0 (block_init 40 (mkShmem (junk 0) [])) = Some s1
    /\ forall w, 0 <= w < warps_in_block 40 ->
         cells s1 w
         = wrap32 (warp_matches K4 4 1 0 w (Z.min warpSize (40 - w * warpSize))).
Proof.
  apply (warp_slot_holds_its_own_matches K4 4 1 40 0 (mkShmem (junk 0) []));
    [reflexivity | reflexivity | lia].
Defined.

(** ** The upper half of the matrix *)

Section Halves.

Variables (N : Z) (e : Z -> Z -> Z).
Hypothesis e_sym : forall a b, 0 <= a < N -> 0 <= b < N -> e a b = e b a.
Hypothesis e_irr : forall a, 0 <= a < N -> e a a = 0.

Local Notation "'upper'" :=
  (fun r c w : Z => if r <? c then e r c * e r w * e c w else 0).

Lemma upper_is_half :
  Sum3 N (fun r c w => e r c * e r w * e c w) = 2 * Sum3 N upper.
Proof.
  transitivity (Sum3 N (fun r c w => upper r c w + upper c r w)).
  - apply Sum3_ext. intros r c w Hr Hc Hw. cbv beta.
    rewrite (e_sym c r) by assumption.
    destruct (Z.ltb_spec r c); destruct (Z.ltb_spec c r); try lia.
    assert (c = r) by lia. subst c. rewrite (e_irr r) by assumption. lia.
  - pose proof (Sum3_add N upper (fun r c w => upper c r w)) as A1.
    pose proof (Sum3_swap12 N upper) as E1.
    cbv beta in A1, E1. rewrite A1, <- E1. lia.
Qed.

End Halves.

Lemma full_sum_cube A N :
  WF A N -> rows_strict A N = true ->
  full_sum A N
  = Sum3 N (fun r c w => ind (adj A r c) * ind (adj A r w) * ind (adj A c w)).
Proof.
  intros W S. unfold full_sum, Sum3. apply Sum_ext. intros r Hr.
  pose proof (rows_by_row _ _ _ _ S Hr) as Sr.
  etransitivity.
  { exact (slice_sum A N r (fun c => naive_intersection A r c) W Hr). }
  apply Sum_ext. intros c Hc.
  pose proof (rows_by_row _ _ _ _ S Hc) as Sc.
  rewrite (naive_intersection_mult A N) by assumption.
  rewrite mult_adj by assumption. rewrite <- Sum_scale.
  apply Sum_ext. intros w _. rewrite !mult_adj by assumption. lia.
Qed.

(** X10: the comment of lines 138-139 holds.  On a well-formed symmetric
    input with strictly ascending rows and an empty diagonal, the value
    the kernel accumulates over the entries with [col > row] is half of
    the sum over all entries of [(A * A) .* A], which is six times the
    number of triangles. *)
Theorem upper_half_is_half_the_sum A N G u nT :
  wf_csr A N = true -> rows_strict A N = true -> symmetric A N = true ->
  no_self_loops A N = true ->
  launch_ok A N G (numberOfWarps * warpSize) = true ->
  exists v,
    cuFindTriangles A N G (numberOfWarps * warpSize) u (cuZeroVariable nT)
    = Some (wrap32 v)
    /\ full_sum A N = 2 * v
    /\ full_sum A N = 6 * triangles A N.
Proof.
  intros W S Sy Irr L. apply wf_csr_WF in W. apply launch_ok_Launch in L.
  exists (total_calls A N).
  assert (H2 : full_sum A N = 2 * total_calls A N).
  { rewrite full_sum_cube, total_calls_edges by assumption.
    apply (upper_is_half N (fun a b => ind (adj A a b))).
    - intros a b Ha Hb. f_equal. apply (symmetric_adj A N); assumption.
    - intros a Ha. unfold no_self_loops in Irr.
      pose proof (forallb_zrange _ _ _ Irr a Ha) as H. cbv beta in H.
      destruct (adj A a a); [discriminate|reflexivity]. }
  split; [|split; [exact H2|]].
  - unfold cuZeroVariable. rewrite kernel_total by (try assumption; int_range).
    rewrite Z.add_0_l. reflexivity.
  - rewrite H2, total_calls_triangles by assumption. lia.
Qed.

Lemma upper_half_is_half_the_sum_witness :
  exists v,
    cuFindTriangles K4 4 1 (numberOfWarps * warpSize) junk (cuZeroVariable 3)
    = Some (wrap32 v)
    /\ full_sum K4 4 = 2 * v
    /\ full_sum K4 4 = 6 * triangles K4 4.
Proof.
  apply (upper_half_is_half_the_sum K4 4 1 junk 3); reflexivity.
Defined.

(** ** The rows and entries of a thread *)

(** X11: on a well-formed input under an accepted launch, the thread
    [threadIdx] of block [blockIdx] runs the loop body of lines 134-166 on
    the rows [index, index + stride, ...] below [N], with
    [index = wid + blockIdx * numberOfWarps] and
    [stride = numberOfWarps * gridDim], and in each of them on the entries
    [rowPtr[row] + lane, rowPtr[row] + lane + warpSize, ...] of the row,
    and on nothing else: its calls are the sum of what the body records
    there. *)
Theorem thread_runs_its_rows_and_lanes A N G B b t :
  wf_csr A N = true -> launch_ok A N G B = true -> 0 <= b < G -> 0 <= t < B ->
  thread_calls A N G b t
  = Some (Sum 0 N
            (strided (t / warpSize + b * numberOfWarps) (numberOfWarps * G)
               (fun row =>
                  Sum (rP A row) (rP A (row + 1))
                    (strided (rP A row + t mod warpSize) warpSize
                       (fun j => match edge_body A row j 0 with
                                 | Some m => m
                                 | None => 0
                                 end))))).
Proof.
  intros W L Hb Ht. apply wf_csr_WF in W. apply launch_ok_Launch in L.
  rewrite (thread_calls_pure A N G B) by assumption.
  unfold thread_sum. cbv zeta. f_equal.
  apply Sum_ext. intros row Hrow. unfold strided.
  destruct (_ && _); [|reflexivity].
  unfold lane_calls. apply Sum_ext. intros j Hj. unfold strided.
  destruct (_ && _); [|reflexivity].
  pose proof (rP_bounds _ _ W row ltac:(lia)).
  pose proof (rP_bounds _ _ W (row + 1) ltac:(lia)).
  rewrite (edge_body_pure A N W) by lia. reflexivity.
Qed.

Lemma thread_runs_its_rows_and_lanes_witness :
  thread_calls K4 4 1 0 33
  = Some (Sum 0 4
            (strided (33 / warpSize + 0 * numberOfWarps) (numberOfWarps * 1)
               (fun row =>
                  Sum (rP K4 row) (rP K4 (row + 1))
                    (strided (rP K4 row + 33 mod warpSize) warpSize
                       (fun j => match edge_body K4 row j 0 with
                                 | Some m => m
                                 | None => 0
                                 end))))).
Proof.
  apply (thread_runs_its_rows_and_lanes K4 4 1 256 0 33);
    [reflexivity | reflexivity | lia | lia].
Defined.

(** ** Threads and blocks in any order *)

(** X12: the row phase of a block is a set of atomic adds, each warp on
    its own slot: run in any order, the threads leave the same value in
    every slot, or fail alike. *)
Theorem row_phase_in_any_thread_order A N G b ts ts' s :
  Permutation ts ts' ->
  same_cells (block_rows_from A N G b ts s) (block_rows_from A N G b ts' s).
Proof.
  intros P. apply block_rows_order; [exact P | reflexivity].
Qed.

Lemma row_phase_in_any_thread_order_witness :
  same_cells (block_rows_from K4 4 1 0 [0; 1; 33] (mkShmem (junk 0) []))
             (block_rows_from K4 4 1 0 (rev [0; 1; 33]) (mkShmem (junk 0) [])).
Proof.
  apply (row_phase_in_any_thread_order K4 4 1 0 [0; 1; 33] (rev [0; 1; 33])).
  apply Permutation_rev.
Defined.

(** X13: the blocks of the grid only add to the accumulator: run in any
    order, they leave the same value in it, or fail alike. *)
Theorem grid_in_any_block_order A N G B u bs bs' nT :
  1 <= B <= 1024 -> INT_MIN <= nT <= INT_MAX -> Permutation bs bs' ->
  grid_from A N G B u bs nT = grid_from A N G B u bs' nT.
Proof. intros HB HnT P. apply grid_order; assumption. Qed.

Lemma grid_in_any_block_order_witness :
  grid_from K4 4 3 256 junk [0; 1; 2] 0 = grid_from K4 4 3 256 junk (rev [0; 1; 2]) 0.
Proof.
  apply (grid_in_any_block_order K4 4 3 256 junk [0; 1; 2] (rev [0; 1; 2]) 0);
    [lia | vm_compute; split; discriminate | apply Permutation_rev].
Defined.

(** ** Blocks of fewer warps *)

Lemma strided_point u S f i : 0 < S -> 0 <= u < S -> 0 <= i ->
  strided u S f i = if u =? i mod S then f i else 0.
Proof.
  intros HS Hu Hi. unfold strided.
  pose proof (Z.mod_pos_bound i S HS) as Hm.
  pose proof (Z.div_mod i S ltac:(lia)) as Hd.
  destruct (Z.eqb_spec u (i mod S)) as [->|Hne].
  - destruct (Z.leb_spec (i mod S) i) as [_|Hc].
    + replace (i - i mod S) with (i / S * S) by lia.
      rewrite Z.mod_mul by lia. reflexivity.
    + exfalso. assert (0 <= i / S) by (apply Z.div_pos; lia). nia.
  - destruct (Z.leb_spec u i); cbn [andb]; [|reflexivity].
    destruct (Z.eqb_spec ((i - u) mod S) 0) as [E|E]; [|reflexivity].
    exfalso. apply Hne.
    apply Z.mod_divide in E; [|lia]. destruct E as [q E].
    replace i with (u + q * S) by lia.
    rewrite Z.mod_add, Z.mod_small by lia. reflexivity.
Qed.

Lemma warp_rows A N S u :
  Sum 0 warpSize (fun lane => Sum 0 N (strided u S (fun row => lane_calls A row lane)))
  = Sum 0 N (strided u S (row_calls A)).
Proof.
  rewrite Sum_swap. apply Sum_ext. intros row _. unfold strided.
  destruct (_ && _); [apply lanes_cover | apply Sum_zero; reflexivity].
Qed.

Lemma mod_of_stride i G : 0 < G -> (i mod (numberOfWarps * G)) mod numberOfWarps
                                   = i mod numberOfWarps.
Proof.
  intros HG. unfold numberOfWarps.
  pose proof (Z.div_mod i (8 * G) ltac:(lia)) as Hd.
  rewrite Hd at 2.
  replace (8 * G * (i / (8 * G)) + i mod (8 * G))
    with (i mod (8 * G) + G * (i / (8 * G)) * 8) by lia.
  rewrite Z_mod_plus_full. reflexivity.
Qed.

(** With [W] full warps in every block, the grid visits the rows whose
    index modulo [numberOfWarps] is below [W], each once. *)
Lemma grid_cover_warps A N G W : 0 <= N -> 1 <= G -> 0 <= W <= numberOfWarps ->
  Sum 0 G (fun b => Sum 0 (W * warpSize) (thread_sum A N G b))
  = Sum 0 N (fun row => if row mod numberOfWarps <? W then row_calls A row else 0).
Proof.
  intros HN HG HW.
  set (S := numberOfWarps * G).
  set (K := fun u => Sum 0 N (strided u S (row_calls A))).
  set (F := fun b w => if w <? W then K (w + b * numberOfWarps) else 0).
  transitivity (Sum 0 G (fun b => Sum 0 numberOfWarps (F b))).
  { apply Sum_ext. intros b Hb.
    pose proof (Sum_divmod (Z.to_nat W) warpSize
              (fun w lane => Sum 0 N (strided (w + b * numberOfWarps) S
                                        (fun row => lane_calls A row lane)))
              ltac:(reflexivity)) as E.
    rewrite Z2Nat.id in E by lia.
    etransitivity; [exact E|].
    rewrite (Sum_split 0 W numberOfWarps) by lia.
    rewrite (Sum_zero W numberOfWarps)
      by (intros w Hw; unfold F; destruct (Z.ltb_spec w W); [lia|reflexivity]).
    rewrite Z.add_0_r. apply Sum_ext. intros w Hw. unfold F.
    destruct (Z.ltb_spec w W); [|lia]. apply warp_rows. }
  transitivity (Sum 0 (G * numberOfWarps)
                  (fun u => if u mod numberOfWarps <? W then K u else 0)).
  { pose proof (Sum_divmod (Z.to_nat G) numberOfWarps F ltac:(reflexivity)) as E.
    rewrite Z2Nat.id in E by lia. rewrite <- E.
    apply Sum_ext. intros u Hu. unfold F.
    destruct (u mod numberOfWarps <? W); [|reflexivity]. f_equal.
    pose proof (Z.div_mod u numberOfWarps ltac:(unfold numberOfWarps; lia)). lia. }
  replace (G * numberOfWarps) with S by (unfold S; lia).
  transitivity (Sum 0 S (fun u => Sum 0 N (fun row =>
                  if u =? row mod S
                  then (if row mod numberOfWarps <? W then row_calls A row else 0)
                  else 0))).
  { apply Sum_ext. intros u Hu. unfold K.
    destruct (Z.ltb_spec (u mod numberOfWarps) W) as [Hlt|Hge].
    - apply Sum_ext. intros row Hrow.
      rewrite strided_point by (unfold S, numberOfWarps in *; lia).
      destruct (Z.eqb_spec u (row mod S)) as [->|]; [|reflexivity].
      unfold S in Hlt. rewrite mod_of_stride in Hlt by lia.
      destruct (Z.ltb_spec (row mod numberOfWarps) W); [reflexivity|lia].
    - symmetry. apply Sum_zero. intros row Hrow.
      destruct (Z.eqb_spec u (row mod S)) as [->|]; [|reflexivity].
      unfold S in Hge. rewrite mod_of_stride in Hge by lia.
      destruct (Z.ltb_spec (row mod numberOfWarps) W); [lia|reflexivity]. }
  rewrite Sum_swap. apply Sum_ext. intros row Hrow.
  apply (Sum_single 0 S (row mod S)
           (fun _ => if row mod numberOfWarps <? W then row_calls A row else 0)).
  apply Z.mod_pos_bound. unfold S, numberOfWarps. lia.
Qed.

(** X14: the rows are shared out with the constant [numberOfWarps], not
    with the size of the block.  On a well-formed input, launched with
    blocks of [W] full warps, [1 <= W <= numberOfWarps], on any grid, the
    kernel adds to the accumulator what is recorded for the rows whose
    index modulo [numberOfWarps] is below [W], and never visits the other
    rows. *)
Theorem fewer_warps_skip_rows A N G W u nT :
  wf_csr A N = true -> 1 <= W <= numberOfWarps ->
  launch_ok A N G (W * warpSize) = true ->
  cuFindTriangles A N G (W * warpSize) u (cuZeroVariable nT)
  = Some (wrap32 (Sum 0 N (fun row =>
            if row mod numberOfWarps <? W
            then Sum (rP A row) (rP A (row + 1)) (fun j =>
                   match edge_body A row j 0 with Some m => m | None => 0 end)
            else 0))).
Proof.
  intros Wf HW L. apply wf_csr_WF in Wf. apply launch_ok_Launch in L.
  unfold cuZeroVariable.
  rewrite cuFindTriangles_result by (try apply (la_block _ _ _ _ L); int_range).
  rewrite grid_calls_pure by assumption. cbn [option_map]. rewrite Z.add_0_l.
  rewrite grid_cover_warps
    by (try apply (wf_N _ _ Wf); try apply (la_grid _ _ _ _ L); lia).
  do 2 f_equal. apply Sum_ext. intros row Hrow.
  destruct (row mod numberOfWarps <? W); [|reflexivity].
  unfold row_calls. apply Sum_ext. intros j Hj.
  pose proof (rP_bounds _ _ Wf row ltac:(lia)).
  pose proof (rP_bounds _ _ Wf (row + 1) ltac:(lia)).
  rewrite (edge_body_pure A N Wf) by lia. reflexivity.
Qed.

Lemma fewer_warps_skip_rows_witness :
  cuFindTriangles K4 4 2 (2 * warpSize) junk (cuZeroVariable 0)
  = Some (wrap32 (Sum 0 4 (fun row =>
            if row mod numberOfWarps <? 2
            then Sum (rP K4 row) (rP K4 (row + 1)) (fun j =>
                   match edge_body K4 row j 0 with Some m => m | None => 0 end)
            else 0))).
Proof.
  apply (fewer_warps_skip_rows K4 4 2 2 junk 0);
    [reflexivity | unfold numberOfWarps; lia | reflexivity].
Defined.

(** ** Well-formed inputs never fail *)

(** X15: on a well-formed structure, sorted or not, symmetric or not,
    under every accepted launch, no thread reads [csrRowPtr] or
    [csrColInd] outside the arrays and no index computation overflows: the
    kernel returns a value. *)
Theorem well_formed_input_returns A N G B u nT :
  wf_csr A N = true -> launch_ok A N G B = true -> INT_MIN <= nT <= INT_MAX ->
  exists v, cuFindTriangles A N G B u nT = Some v /\ INT_MIN <= v <= INT_MAX.
Proof.
  intros W L HnT. apply wf_csr_WF in W. apply launch_ok_Launch in L.
  rewrite cuFindTriangles_result by (try apply (la_block _ _ _ _ L); assumption).
  rewrite grid_calls_pure by assumption. cbn [option_map].
  eexists. split; [reflexivity|apply wrap32_range].
Qed.

Lemma well_formed_input_returns_witness :
  exists v, cuFindTriangles U3 3 2 100 junk 4 = Some v /\ INT_MIN <= v <= INT_MAX.
Proof.
  apply (well_formed_input_returns U3 3 2 100 junk 4);
    [reflexivity | reflexivity | vm_compute; split; discriminate].
Defined.
